(** * Path-name metadata codec of libhandlegraph (src/path_metadata.cpp)

    A shallow embedding of [PathMetadata]: the [FORMAT] regular expression
    and its ECMAScript (backtracking, priority-ordered) matching, the
    [std::stoll] conversions, the six single-field parsers, the all-fields
    parser [parse_path_name], the builder [create_path_name], and the
    filtered path iteration [for_each_path_matching_impl]. *)

From Stdlib Require Import String Ascii List ZArith Lia Bool.
Import ListNotations.

Module PathMetadata.

(** ** Senses and placeholders *)

Inductive Sense := SENSE_GENERIC | SENSE_REFERENCE | SENSE_HAPLOTYPE.

Definition Sense_eqb (a b : Sense) : bool :=
  match a, b with
  | SENSE_GENERIC, SENSE_GENERIC
  | SENSE_REFERENCE, SENSE_REFERENCE
  | SENSE_HAPLOTYPE, SENSE_HAPLOTYPE => true
  | _, _ => false
  end.

Definition NO_SAMPLE_NAME : string := "".
Definition NO_LOCUS_NAME : string := "".
Definition NO_HAPLOTYPE : Z := (-1)%Z.
Definition NO_PHASE_BLOCK : Z := (-1)%Z.
Definition NO_END_POSITION : Z := (-1)%Z.
Definition NO_SUBRANGE : Z * Z := ((-1)%Z, NO_END_POSITION).

Definition SEPARATOR : ascii := "#".
Definition RANGE_START_SEPARATOR : ascii := "[".
Definition RANGE_END_SEPARATOR : ascii := "-".
Definition RANGE_TERMINATOR : ascii := "]".

(** ** Exceptions and the result monad

    [std::stoll] throws [std::invalid_argument] or [std::out_of_range];
    [create_path_name] throws [std::runtime_error]. *)

Inductive error := InvalidArgument | OutOfRange | RuntimeError (msg : string).

Inductive result (A : Type) := Ok (a : A) | Err (e : error).
Arguments Ok {A} a.
Arguments Err {A} e.

Definition bind {A B} (m : result A) (f : A -> result B) : result B :=
  match m with Ok a => f a | Err e => Err e end.

Notation "x <- m ;; f" := (bind m (fun x => f))
  (at level 61, m at next level, right associativity).

(** ** The regular-expression engine

    The subset of ECMAScript regular expressions used by [FORMAT]: single
    characters, greedy [*] and [+] over a character class, capture groups,
    concatenation and the greedy optional [?].  Matching is the ECMAScript
    backtracking semantics written in continuation-passing style: the first
    alternative in priority order whose continuation succeeds wins, which is
    what libstdc++'s depth-first executor returns for [std::regex_match]. *)

Inductive regex :=
| RChar (c : ascii)
| RStarClass (p : ascii -> bool)
| RPlusClass (p : ascii -> bool)
| RGroup (n : nat) (r : regex)
| RSeq (r1 r2 : regex)
| ROpt (r : regex).

(** Capture slots: [None] is an unmatched sub-match. *)
Definition caps := nat -> option (list ascii).

Definition no_caps : caps := fun _ => None.

Definition caps_set (cs : caps) (n : nat) (v : list ascii) : caps :=
  fun i => if Nat.eqb i n then Some v else cs i.

Fixpoint groups (r : regex) : list nat :=
  match r with
  | RChar _ | RStarClass _ | RPlusClass _ => []
  | RGroup n r => n :: groups r
  | RSeq r1 r2 => groups r1 ++ groups r2
  | ROpt r => groups r
  end.

(** Each iteration of a quantified atom starts with its groups undefined. *)
Definition caps_clear (cs : caps) (ns : list nat) : caps :=
  fun i => if existsb (Nat.eqb i) ns then None else cs i.

Definition cont := list ascii -> caps -> option caps.

(** Greedy [p*]: try one more character first, fewer on failure. *)
Fixpoint star_class (p : ascii -> bool) (s : list ascii) (cs : caps) (k : cont)
  : option caps :=
  match s with
  | c :: s' =>
      if p c then
        match star_class p s' cs k with
        | Some r => Some r
        | None => k s cs
        end
      else k s cs
  | [] => k [] cs
  end.

Fixpoint rmatch (r : regex) (s : list ascii) (cs : caps) (k : cont) : option caps :=
  match r with
  | RChar c =>
      match s with
      | c' :: s' => if Ascii.eqb c c' then k s' cs else None
      | [] => None
      end
  | RStarClass p => star_class p s cs k
  | RPlusClass p =>
      match s with
      | c :: s' => if p c then star_class p s' cs k else None
      | [] => None
      end
  | RGroup n r =>
      rmatch r s cs (fun s' cs' => k s' (caps_set cs' n (firstn (length s - length s') s)))
  | RSeq r1 r2 => rmatch r1 s cs (fun s' cs' => rmatch r2 s' cs' k)
  | ROpt r =>
      match rmatch r s (caps_clear cs (groups r))
              (fun s' cs' => if Nat.eqb (length s') (length s) then None else k s' cs') with
      | Some x => Some x
      | None => k s cs
      end
  end.

(** [std::regex_match]: the whole input must be consumed; slot 0 is the
    whole match. *)
Definition regex_match (r : regex) (s : string) : option caps :=
  rmatch (RGroup 0 r) (list_ascii_of_string s) no_caps
    (fun rest cs => match rest with [] => Some cs | _ :: _ => None end).

(** The classes [^[#] and \d. *)
Definition not_sep (c : ascii) : bool :=
  negb (Ascii.eqb c "[" || Ascii.eqb c "#").

Definition is_digit (c : ascii) : bool :=
  (48 <=? nat_of_ascii c)%nat && (nat_of_ascii c <=? 57)%nat.

(** The source's pattern, spaced so that no star closes this comment:
    ( [^[#] * ) (?:# ( [^[#] * ))? (?:# ( [^[#] * ))? (?:# (\d+))? (?:\[ (\d+) (?:- (\d+)) \])?
    Note that the group (?:- (\d+)) carries no quantifier. *)
Definition FORMAT : regex :=
  RSeq (RGroup 1 (RStarClass not_sep))
  (RSeq (ROpt (RSeq (RChar "#") (RGroup 2 (RStarClass not_sep))))
  (RSeq (ROpt (RSeq (RChar "#") (RGroup 3 (RStarClass not_sep))))
  (RSeq (ROpt (RSeq (RChar "#") (RGroup 4 (RPlusClass is_digit))))
        (ROpt (RSeq (RChar "[")
                (RSeq (RGroup 5 (RPlusClass is_digit))
                (RSeq (RSeq (RChar "-") (RGroup 6 (RPlusClass is_digit)))
                      (RChar "]")))))))).

Definition ASSEMBLY_OR_NAME_MATCH : nat := 1.
Definition LOCUS_MATCH_WITHOUT_HAPLOTYPE : nat := 2.
Definition HAPLOTYPE_MATCH : nat := 2.
Definition LOCUS_MATCH_WITH_HAPLOTYPE : nat := 3.
Definition PHASE_BLOCK_MATCH : nat := 4.
Definition RANGE_START_MATCH : nat := 5.
Definition RANGE_END_MATCH : nat := 6.

(** [result[n].matched] and [result[n].str()] (empty when unmatched). *)
Definition matched (r : caps) (n : nat) : bool :=
  match r n with Some _ => true | None => false end.

Definition str (r : caps) (n : nat) : string :=
  match r n with Some l => string_of_list_ascii l | None => EmptyString end.

(** ** [std::stoll] (base 10)

    Leading white space is skipped, an optional sign is read, then the
    longest run of decimal digits; no digit gives [std::invalid_argument],
    a value outside [int64_t] gives [std::out_of_range]. *)

Definition LLONG_MIN : Z := (- 2 ^ 63)%Z.
Definition LLONG_MAX : Z := (2 ^ 63 - 1)%Z.

Definition is_space (c : ascii) : bool :=
  existsb (Ascii.eqb c) [" "; "009"; "010"; "011"; "012"; "013"]%char.

Fixpoint skip_space (l : list ascii) : list ascii :=
  match l with
  | c :: t => if is_space c then skip_space t else l
  | [] => []
  end.

Fixpoint take_digits (l : list ascii) : list ascii :=
  match l with
  | c :: t => if is_digit c then c :: take_digits t else []
  | [] => []
  end.

Definition digit_value (c : ascii) : Z := (Z.of_nat (nat_of_ascii c) - 48)%Z.

Definition digits_value (ds : list ascii) : Z :=
  fold_left (fun acc c => acc * 10 + digit_value c)%Z ds 0%Z.

Definition stoll (s : string) : result Z :=
  let l := skip_space (list_ascii_of_string s) in
  let '(neg, l') :=
    match l with
    | c :: t =>
        if Ascii.eqb c "-" then (true, t)
        else if Ascii.eqb c "+" then (false, t) else (false, l)
    | [] => (false, [])
    end in
  match take_digits l' with
  | [] => Err InvalidArgument
  | ds =>
      let v := digits_value ds in
      let z := if neg then (- v)%Z else v in
      if (LLONG_MIN <=? z)%Z && (z <=? LLONG_MAX)%Z then Ok z else Err OutOfRange
  end.

(** ** [operator<<(std::ostream&, int64_t)]: decimal text *)

Fixpoint digits_rev_fuel (fuel : nat) (n : Z) (acc : list ascii) : list ascii :=
  match fuel with
  | O => acc
  | S f =>
      let acc' := ascii_of_nat (Z.to_nat (n mod 10) + 48) :: acc in
      if (n <? 10)%Z then acc' else digits_rev_fuel f (n / 10)%Z acc'
  end.

(** [log2 n + 1] bounds the number of decimal digits of [n]. *)
Definition nonneg_digits (n : Z) : list ascii :=
  digits_rev_fuel (S (Z.to_nat (Z.log2 n))) n [].

Definition int64_to_string (z : Z) : string :=
  string_of_list_ascii
    (if (z <? 0)%Z then "-"%char :: nonneg_digits (- z)%Z else nonneg_digits z).

(** ** The single-field parsers *)

Definition parse_sense (path_name : string) : Sense :=
  match regex_match FORMAT path_name with
  | Some result =>
      if matched result PHASE_BLOCK_MATCH then SENSE_HAPLOTYPE else SENSE_REFERENCE
  | None => SENSE_GENERIC
  end.

Definition parse_sample_name (path_name : string) : string :=
  match regex_match FORMAT path_name with
  | Some result =>
      if matched result LOCUS_MATCH_WITH_HAPLOTYPE
         || matched result LOCUS_MATCH_WITHOUT_HAPLOTYPE
      then str result ASSEMBLY_OR_NAME_MATCH
      else NO_SAMPLE_NAME
  | None => NO_SAMPLE_NAME
  end.

Definition parse_locus_name (path_name : string) : string :=
  match regex_match FORMAT path_name with
  | Some result =>
      if matched result LOCUS_MATCH_WITH_HAPLOTYPE then
        str result LOCUS_MATCH_WITH_HAPLOTYPE
      else if matched result LOCUS_MATCH_WITHOUT_HAPLOTYPE then
        str result LOCUS_MATCH_WITHOUT_HAPLOTYPE
      else str result ASSEMBLY_OR_NAME_MATCH
  | None => path_name
  end.

Definition parse_haplotype (path_name : string) : result Z :=
  match regex_match FORMAT path_name with
  | Some result =>
      if matched result LOCUS_MATCH_WITH_HAPLOTYPE then
        stoll (str result HAPLOTYPE_MATCH)
      else Ok NO_HAPLOTYPE
  | None => Ok NO_HAPLOTYPE
  end.

Definition parse_phase_block (path_name : string) : result Z :=
  match regex_match FORMAT path_name with
  | Some result =>
      if matched result PHASE_BLOCK_MATCH then
        stoll (str result PHASE_BLOCK_MATCH)
      else Ok NO_PHASE_BLOCK
  | None => Ok NO_PHASE_BLOCK
  end.

Definition parse_subrange (path_name : string) : result (Z * Z) :=
  let to_return := NO_SUBRANGE in
  match regex_match FORMAT path_name with
  | Some result =>
      if matched result RANGE_START_MATCH then
        first <- stoll (str result RANGE_START_MATCH) ;;
        if matched result RANGE_END_MATCH then
          second <- stoll (str result RANGE_END_MATCH) ;;
          Ok (first, second)
        else Ok (first, snd to_return)
      else Ok to_return
  | None => Ok to_return
  end.

(** ** The all-fields parser

    The C++ function writes six out-parameters; here they are one record,
    and an exception thrown by [std::stoll] is an [Err]. *)

Record path_meta := mk_path_meta {
  pm_sense : Sense;
  pm_sample : string;
  pm_locus : string;
  pm_haplotype : Z;
  pm_phase_block : Z;
  pm_subrange : Z * Z
}.

Definition parse_path_name (path_name : string) : result path_meta :=
  match regex_match FORMAT path_name with
  | Some result =>
      let sense :=
        if matched result PHASE_BLOCK_MATCH then SENSE_HAPLOTYPE else SENSE_REFERENCE in
      slh <-
        (if matched result LOCUS_MATCH_WITH_HAPLOTYPE then
           haplotype <- stoll (str result HAPLOTYPE_MATCH) ;;
           Ok (str result ASSEMBLY_OR_NAME_MATCH,
               str result LOCUS_MATCH_WITH_HAPLOTYPE, haplotype)
         else if matched result LOCUS_MATCH_WITHOUT_HAPLOTYPE then
           Ok (str result ASSEMBLY_OR_NAME_MATCH,
               str result LOCUS_MATCH_WITHOUT_HAPLOTYPE, NO_HAPLOTYPE)
         else
           Ok (NO_SAMPLE_NAME, str result ASSEMBLY_OR_NAME_MATCH, NO_HAPLOTYPE)) ;;
      let '(sample, locus, haplotype) := slh in
      phase_block <-
        (if matched result PHASE_BLOCK_MATCH then
           stoll (str result PHASE_BLOCK_MATCH)
         else Ok NO_PHASE_BLOCK) ;;
      subrange <-
        (if matched result RANGE_START_MATCH then
           first <- stoll (str result RANGE_START_MATCH) ;;
           if matched result RANGE_END_MATCH then
             second <- stoll (str result RANGE_END_MATCH) ;;
             Ok (first, second)
           else Ok (first, NO_END_POSITION)
         else Ok NO_SUBRANGE) ;;
      Ok (mk_path_meta sense sample locus haplotype phase_block subrange)
  | None =>
      Ok (mk_path_meta SENSE_GENERIC NO_SAMPLE_NAME path_name
            NO_HAPLOTYPE NO_PHASE_BLOCK NO_SUBRANGE)
  end.

(** ** The builder

    The [std::stringstream] is the string built so far; each [throw] is an
    [Err (RuntimeError _)] carrying the source's message. *)

Definition sep : string := String SEPARATOR EmptyString.

Definition create_path_name (sense : Sense) (sample locus : string)
    (haplotype phase_block : Z) (subrange : Z * Z) : result string :=
  b1 <-
    (if negb (String.eqb sample NO_SAMPLE_NAME) then
       if Sense_eqb sense SENSE_GENERIC then
         Err (RuntimeError "Generic path must have a sample")
       else Ok (sample ++ sep)%string
     else Ok EmptyString) ;;
  b2 <-
    (if negb (String.eqb locus NO_LOCUS_NAME) then Ok (b1 ++ locus)%string
     else match sense with
          | SENSE_GENERIC => Err (RuntimeError "Generic path must have a locus/name")
          | SENSE_REFERENCE => Err (RuntimeError "Referecne path must have a locus")
          | SENSE_HAPLOTYPE => Err (RuntimeError "Haplotype path must have a locus")
          end) ;;
  b3 <-
    (if negb (Z.eqb haplotype NO_HAPLOTYPE) then
       if Sense_eqb sense SENSE_GENERIC then
         Err (RuntimeError "Generic path must have a haplotype number")
       else Ok (b2 ++ sep ++ int64_to_string haplotype)%string
     else if Sense_eqb sense SENSE_HAPLOTYPE then
       Err (RuntimeError "Haplotype path must have a haplotype number")
     else Ok b2) ;;
  b4 <-
    (if negb (Z.eqb phase_block NO_PHASE_BLOCK) then
       if Sense_eqb sense SENSE_GENERIC then
         Err (RuntimeError "Generic path must have a phase block")
       else if Sense_eqb sense SENSE_REFERENCE then
         Err (RuntimeError "Reference path must have a phase block")
       else Ok (b3 ++ sep ++ int64_to_string phase_block)%string
     else if Sense_eqb sense SENSE_HAPLOTYPE then
       Err (RuntimeError "Haplotype path must have a phase block")
     else Ok b3) ;;
  let b5 :=
    if negb (Z.eqb (fst subrange) (fst NO_SUBRANGE)
             && Z.eqb (snd subrange) (snd NO_SUBRANGE)) then
      (b4 ++ String RANGE_START_SEPARATOR (int64_to_string (fst subrange))
        ++ (if negb (Z.eqb (snd subrange) NO_END_POSITION) then
              String RANGE_END_SEPARATOR (int64_to_string (snd subrange))
            else EmptyString)
        ++ String RANGE_TERMINATOR EmptyString)%string
    else b4 in
  Ok b5.

(** ** Filtered path iteration *)

Section PathIteration.

Variable path_handle_t : Type.

(** The one backing method the default implementation needs. *)
Variable get_path_name : path_handle_t -> string.

Definition get_sense (h : path_handle_t) : Sense := parse_sense (get_path_name h).
Definition get_sample_name (h : path_handle_t) : string := parse_sample_name (get_path_name h).
Definition get_locus_name (h : path_handle_t) : string := parse_locus_name (get_path_name h).
Definition get_haplotype (h : path_handle_t) : result Z := parse_haplotype (get_path_name h).
Definition get_phase_block (h : path_handle_t) : result Z := parse_phase_block (get_path_name h).
Definition get_subrange (h : path_handle_t) : result (Z * Z) := parse_subrange (get_path_name h).

(** Modelled from the spec: [for_each_path_handle_impl], the pure virtual
    enumeration primitive of the path-handle-graph interface, which has no
    body in this source tree.  It hands the graph's path handles [hs] to the
    iteratee in the graph's order, stops as soon as the iteratee returns
    false and then returns false, and returns true once every handle has
    been visited.  The iteratee is a closure whose effects are the state
    [St] it threads. *)
Fixpoint for_each_path_handle_impl {St : Type} (hs : list path_handle_t)
    (iteratee : St -> path_handle_t -> bool * St) (st : St) : bool * St :=
  match hs with
  | [] => (true, st)
  | h :: hs' =>
      let '(go, st') := iteratee st h in
      if go then for_each_path_handle_impl hs' iteratee st' else (false, st')
  end.

(** [std::unordered_set::count] on the filter sets, held as lists. *)
Definition count_sense (ss : list Sense) (x : Sense) : bool := existsb (Sense_eqb x) ss.
Definition count_string (ss : list string) (x : string) : bool := existsb (String.eqb x) ss.

(** A null set pointer is [None]. *)
Definition for_each_path_matching_impl {St : Type} (hs : list path_handle_t)
    (senses : option (list Sense)) (samples loci : option (list string))
    (iteratee : St -> path_handle_t -> bool * St) (st : St) : bool * St :=
  for_each_path_handle_impl hs
    (fun st handle =>
       if match senses with
          | Some ss => negb (count_sense ss (get_sense handle)) | None => false end
       then (true, st)
       else if match samples with
               | Some ss => negb (count_string ss (get_sample_name handle)) | None => false end
       then (true, st)
       else if match loci with
               | Some ss => negb (count_string ss (get_locus_name handle)) | None => false end
       then (true, st)
       else iteratee st handle)
    st.

(** The claim's reading: a handle is selected when each supplied set
    contains the corresponding derived field. *)
Definition in_filter {A : Type} (eqb : A -> A -> bool) (o : option (list A)) (x : A) : bool :=
  match o with None => true | Some l => existsb (eqb x) l end.

Definition path_selected (senses : option (list Sense)) (samples loci : option (list string))
    (h : path_handle_t) : bool :=
  in_filter Sense_eqb senses (get_sense h)
  && in_filter String.eqb samples (get_sample_name h)
  && in_filter String.eqb loci (get_locus_name h).

(** The handles a stopping visitor sees: all up to and including the first
    one it refuses. *)
Fixpoint take_through (f : path_handle_t -> bool) (l : list path_handle_t) : list path_handle_t :=
  match l with
  | [] => []
  | h :: t => if f h then h :: take_through f t else [h]
  end.

End PathIteration.

(** ** Filtered step iteration *)

Section StepIteration.

Variables handle_t step_handle_t path_handle_t : Type.
Variable get_path_name : path_handle_t -> string.

(** The reverse lookup primitive of the path-handle-graph interface. *)
Variable get_path_handle_of_step : step_handle_t -> path_handle_t.

(** The steps the backing store holds on a handle's node, in its order. *)
Variable steps_on : handle_t -> list step_handle_t.

(** Modelled from the spec: [for_each_step_on_handle_impl], the pure
    virtual step enumeration primitive of the path-handle-graph interface,
    which has no body in this source tree.  It hands the steps on the
    visited handle's node to the iteratee in the backing store's order,
    stops as soon as the iteratee returns false and then returns false, and
    returns true once every step has been visited. *)
Fixpoint visit_steps {St : Type} (ss : list step_handle_t)
    (iteratee : St -> step_handle_t -> bool * St) (st : St) : bool * St :=
  match ss with
  | [] => (true, st)
  | x :: ss' =>
      let '(go, st') := iteratee st x in
      if go then visit_steps ss' iteratee st' else (false, st')
  end.

Definition for_each_step_on_handle_impl {St : Type} (visited : handle_t)
    (iteratee : St -> step_handle_t -> bool * St) (st : St) : bool * St :=
  visit_steps (steps_on visited) iteratee st.

Definition for_each_step_of_sense_impl {St : Type} (visited : handle_t) (sense : Sense)
    (iteratee : St -> step_handle_t -> bool * St) (st : St) : bool * St :=
  for_each_step_on_handle_impl visited
    (fun st handle =>
       if negb (Sense_eqb (get_sense path_handle_t get_path_name
                             (get_path_handle_of_step handle)) sense)
       then (true, st)
       else iteratee st handle)
    st.

(** The steps a stopping visitor sees: all up to and including the first
    one it refuses. *)
Fixpoint steps_through (f : step_handle_t -> bool) (l : list step_handle_t)
  : list step_handle_t :=
  match l with
  | [] => []
  | x :: t => if f x then x :: steps_through f t else [x]
  end.

End StepIteration.

(** Regexes that can never consume an opening bracket. *)
Fixpoint no_open (r : regex) : bool :=
  match r with
  | RChar c => negb (Ascii.eqb c "[")
  | RStarClass p | RPlusClass p => negb (p "["%char)
  | RGroup _ r' | ROpt r' => no_open r'
  | RSeq r1 r2 => no_open r1 && no_open r2
  end.

(** The number of separators a regex can consume, and whether its classes
    exclude the separator. *)
Fixpoint hash_bound (r : regex) : nat :=
  match r with
  | RChar c => if Ascii.eqb c "#" then 1 else 0
  | RStarClass _ | RPlusClass _ => 0
  | RGroup _ r' | ROpt r' => hash_bound r'
  | RSeq r1 r2 => hash_bound r1 + hash_bound r2
  end.

Fixpoint classes_no_hash (r : regex) : bool :=
  match r with
  | RChar _ => true
  | RStarClass p | RPlusClass p => negb (p "#"%char)
  | RGroup _ r' | ROpt r' => classes_no_hash r'
  | RSeq r1 r2 => classes_no_hash r1 && classes_no_hash r2
  end.


(** ** The builder's contract, read from the claim

    The combinations the builder rejects, and the text it emits otherwise:
    sample prefix, locus, haplotype suffix, phase-block suffix, range
    suffix. *)

Definition build_contradictory (sense : Sense) (sample locus : string)
    (haplotype phase_block : Z) : bool :=
  (negb (String.eqb sample NO_SAMPLE_NAME) && Sense_eqb sense SENSE_GENERIC)
  || String.eqb locus NO_LOCUS_NAME
  || (negb (Z.eqb haplotype NO_HAPLOTYPE) && Sense_eqb sense SENSE_GENERIC)
  || (Z.eqb haplotype NO_HAPLOTYPE && Sense_eqb sense SENSE_HAPLOTYPE)
  || (negb (Z.eqb phase_block NO_PHASE_BLOCK)
      && (Sense_eqb sense SENSE_GENERIC || Sense_eqb sense SENSE_REFERENCE))
  || (Z.eqb phase_block NO_PHASE_BLOCK && Sense_eqb sense SENSE_HAPLOTYPE).

Definition sample_prefix (sample : string) : string :=
  if String.eqb sample NO_SAMPLE_NAME then EmptyString else (sample ++ "#")%string.

Definition number_suffix (none : Z) (v : Z) : string :=
  if Z.eqb v none then EmptyString else ("#" ++ int64_to_string v)%string.

Definition range_suffix (subrange : Z * Z) : string :=
  if Z.eqb (fst subrange) (-1) && Z.eqb (snd subrange) (-1) then EmptyString
  else ("[" ++ int64_to_string (fst subrange)
        ++ (if Z.eqb (snd subrange) NO_END_POSITION then EmptyString
            else "-" ++ int64_to_string (snd subrange))
        ++ "]")%string.

Definition concatenated_name (sample locus : string) (haplotype phase_block : Z)
    (subrange : Z * Z) : string :=
  (sample_prefix sample ++ locus ++ number_suffix NO_HAPLOTYPE haplotype
   ++ number_suffix NO_PHASE_BLOCK phase_block ++ range_suffix subrange)%string.

(** ** General facts *)

Lemma string_append_assoc (a b c : string) :
  ((a ++ b) ++ c)%string = (a ++ b ++ c)%string.
Proof. induction a as [|x a IH]; simpl; [reflexivity | now rewrite IH]. Qed.

Lemma string_append_empty_r (a : string) : (a ++ EmptyString)%string = a.
Proof. induction a as [|x a IH]; simpl; [reflexivity | now rewrite IH]. Qed.

Lemma list_ascii_of_string_append (a b : string) :
  list_ascii_of_string (a ++ b) = list_ascii_of_string a ++ list_ascii_of_string b.
Proof. induction a as [|x a IH]; simpl; [reflexivity | now rewrite IH]. Qed.

Lemma bind_ok {A B} (m : result A) (f : A -> result B) (b : B) :
  bind m f = Ok b -> exists a, m = Ok a /\ f a = Ok b.
Proof. destruct m; simpl; [eauto | discriminate]. Qed.

(** Visiting with a logging iteratee. *)
Lemma for_each_logging {H : Type} (f : H -> bool) (l log : list H) :
  for_each_path_handle_impl H l (fun log h => (f h, log ++ [h])) log
  = (forallb f l, log ++ take_through H f l).
Proof.
  revert log; induction l as [|h t IH]; intro log; simpl.
  - now rewrite app_nil_r.
  - destruct (f h); simpl.
    + rewrite IH, <- app_assoc; reflexivity.
    + reflexivity.
Qed.

(** ** What a successful match consumed and captured

    [mrel r u cs cs']: [r] can consume exactly [u], turning the capture
    slots [cs] into [cs'], in some order of the alternatives.  The matcher
    picks the first such run in priority order; these two lemmas relate it
    to the relation both ways. *)

Inductive mrel : regex -> list ascii -> caps -> caps -> Prop :=
| mr_char c cs : mrel (RChar c) [c] cs cs
| mr_star p u cs :
    Forall (fun c => p c = true) u -> mrel (RStarClass p) u cs cs
| mr_plus p c u cs :
    p c = true -> Forall (fun c => p c = true) u -> mrel (RPlusClass p) (c :: u) cs cs
| mr_group n r u cs cs' :
    mrel r u cs cs' -> mrel (RGroup n r) u cs (caps_set cs' n u)
| mr_seq r1 r2 u1 u2 cs cs1 cs2 :
    mrel r1 u1 cs cs1 -> mrel r2 u2 cs1 cs2 -> mrel (RSeq r1 r2) (u1 ++ u2) cs cs2
| mr_opt_some r u cs cs' :
    u <> [] -> mrel r u (caps_clear cs (groups r)) cs' -> mrel (ROpt r) u cs cs'
| mr_opt_none r cs : mrel (ROpt r) [] cs cs.

Lemma firstn_consumed (u s' : list ascii) :
  firstn (length (u ++ s') - length s') (u ++ s') = u.
Proof.
  rewrite length_app, Nat.add_sub, firstn_app, Nat.sub_diag, firstn_O, app_nil_r.
  apply firstn_all.
Qed.

Lemma star_class_sound p s cs k x :
  star_class p s cs k = Some x ->
  exists u s', s = u ++ s' /\ Forall (fun c => p c = true) u /\ k s' cs = Some x.
Proof.
  induction s as [|c s IH]; simpl; intro H.
  - exists [], []; auto.
  - destruct (p c) eqn:Hp.
    + destruct (star_class p s cs k) eqn:Hs.
      * injection H as <-.
        destruct (IH eq_refl) as (u & s' & -> & Hu & Hk).
        exists (c :: u), s'; auto.
      * exists [], (c :: s); auto.
    + exists [], (c :: s); auto.
Qed.

Lemma rmatch_sound r : forall s cs k x,
  rmatch r s cs k = Some x ->
  exists u s' cs', s = u ++ s' /\ mrel r u cs cs' /\ k s' cs' = Some x.
Proof.
  induction r as [c|p|p|n r IH|r1 IH1 r2 IH2|r IH]; intros s cs k x H; simpl in H.
  - destruct s as [|c' s]; [discriminate|].
    destruct (Ascii.eqb c c') eqn:Hc; [|discriminate].
    apply Ascii.eqb_eq in Hc; subst c'.
    exists [c], s, cs; repeat split; [constructor | exact H].
  - destruct (star_class_sound p s cs k x H) as (u & s' & -> & Hu & Hk).
    exists u, s', cs; repeat split; [constructor; exact Hu | exact Hk].
  - destruct s as [|c s]; [discriminate|].
    destruct (p c) eqn:Hp; [|discriminate].
    destruct (star_class_sound p s cs k x H) as (u & s' & -> & Hu & Hk).
    exists (c :: u), s', cs; repeat split; [constructor; assumption | exact Hk].
  - destruct (IH _ _ _ _ H) as (u & s' & cs' & -> & Hr & Hk).
    rewrite firstn_consumed in Hk.
    exists u, s', (caps_set cs' n u); repeat split; [constructor; exact Hr | exact Hk].
  - destruct (IH1 _ _ _ _ H) as (u1 & s1 & cs1 & -> & Hr1 & Hk1).
    destruct (IH2 _ _ _ _ Hk1) as (u2 & s2 & cs2 & -> & Hr2 & Hk2).
    exists (u1 ++ u2), s2, cs2; repeat split.
    + apply app_assoc.
    + econstructor; eassumption.
    + exact Hk2.
  - destruct (rmatch r s (caps_clear cs (groups r)) _) eqn:Hi.
    + injection H as <-.
      destruct (IH _ _ _ _ Hi) as (u & s' & cs' & -> & Hr & Hk).
      destruct (Nat.eqb (length s') (length (u ++ s'))) eqn:Hl; [discriminate|].
      exists u, s', cs'; repeat split; [|exact Hk].
      constructor; [|exact Hr].
      intros ->; simpl in Hl; rewrite Nat.eqb_refl in Hl; discriminate.
    + exists [], s, cs; repeat split; [apply mr_opt_none | exact H].
Qed.

Lemma star_class_fallback p s cs k x :
  k s cs = Some x -> exists y, star_class p s cs k = Some y.
Proof.
  destruct s as [|c s]; simpl; intro H; [eauto|].
  destruct (p c); [|eauto].
  destruct (star_class p s cs k); eauto.
Qed.

Lemma star_class_complete p u s' cs k x :
  Forall (fun c => p c = true) u -> k s' cs = Some x ->
  exists y, star_class p (u ++ s') cs k = Some y.
Proof.
  intros Hu Hk; induction Hu as [|c u Hc Hu IH]; simpl.
  - eapply star_class_fallback; eassumption.
  - rewrite Hc; destruct IH as [y Hy]; rewrite Hy; eauto.
Qed.

Lemma rmatch_complete r u cs cs' :
  mrel r u cs cs' -> forall s' k x, k s' cs' = Some x ->
  exists y, rmatch r (u ++ s') cs k = Some y.
Proof.
  induction 1 as [c cs|p u cs Hu|p c u cs Hc Hu|n r u cs cs' Hr IH
                 |r1 r2 u1 u2 cs cs1 cs2 Hr1 IH1 Hr2 IH2|r u cs cs' Hne Hr IH|r cs];
    intros s' k x Hk; simpl.
  - rewrite Ascii.eqb_refl; eauto.
  - eapply star_class_complete; eassumption.
  - rewrite Hc; eapply star_class_complete; eassumption.
  - apply IH with (x := x); rewrite firstn_consumed; exact Hk.
  - rewrite <- app_assoc.
    destruct (IH2 s' k x Hk) as [y2 Hy2].
    apply IH1 with (x := y2); exact Hy2.
  - destruct (IH s' (fun s'0 cs'0 =>
        if Nat.eqb (length s'0) (length (u ++ s')) then None else k s'0 cs'0) x)
      as [y Hy].
    + rewrite length_app.
      destruct u as [|c u]; [contradiction|].
      simpl; replace (Nat.eqb (length s') (S (length u + length s'))) with false
        by (symmetry; apply Nat.eqb_neq; lia).
      exact Hk.
    + rewrite Hy; eauto.
  - destruct (rmatch r s' (caps_clear cs (groups r)) _); eauto.
Qed.

(** Slots outside the groups of [r] are left alone. *)
Lemma mrel_other r u cs cs' n :
  mrel r u cs cs' -> ~ In n (groups r) -> cs' n = cs n.
Proof.
  induction 1 as [| | |n' r u cs cs' Hr IH|r1 r2 u1 u2 cs cs1 cs2 Hr1 IH1 Hr2 IH2
                 |r u cs cs' Hne Hr IH|]; simpl; intro Hn; try reflexivity.
  - unfold caps_set; destruct (Nat.eqb n n') eqn:E.
    + apply Nat.eqb_eq in E; subst; exfalso; apply Hn; left; reflexivity.
    + apply IH; intro Hi; apply Hn; right; exact Hi.
  - rewrite IH2, IH1; [reflexivity| |]; intro Hi; apply Hn; apply in_or_app; auto.
  - rewrite IH by exact Hn; unfold caps_clear.
    destruct (existsb (Nat.eqb n) (groups r)) eqn:E; [|reflexivity].
    apply existsb_exists in E; destruct E as (m & Hm & Em).
    apply Nat.eqb_eq in Em; subst; contradiction.
Qed.

(** Matching never depends on the capture slots it starts from. *)
Lemma mrel_any_caps r u cs cs' :
  mrel r u cs cs' -> forall cs2, exists cs2', mrel r u cs2 cs2'.
Proof.
  induction 1 as [c cs|p u cs Hu|p c u cs Hc Hu|n r u cs cs' Hr IH
                 |r1 r2 u1 u2 cs cs1 cs2 Hr1 IH1 Hr2 IH2|r u cs cs' Hne Hr IH|r cs];
    intro d.
  - eexists; constructor.
  - eexists; constructor; exact Hu.
  - eexists; constructor; assumption.
  - destruct (IH d) as [d' H]; eexists; constructor; exact H.
  - destruct (IH1 d) as [d1 H1]; destruct (IH2 d1) as [d2 H2].
    eexists; econstructor; eassumption.
  - destruct (IH (caps_clear d (groups r))) as [d' H].
    eexists; constructor; eassumption.
  - eexists; apply mr_opt_none.
Qed.

(** An invariant on capture slots is kept when every group's body only
    matches text the invariant allows in that slot. *)
Fixpoint respects (Q : nat -> list ascii -> Prop) (r : regex) : Prop :=
  match r with
  | RGroup n r' => (forall u cs cs', mrel r' u cs cs' -> Q n u) /\ respects Q r'
  | RSeq r1 r2 => respects Q r1 /\ respects Q r2
  | ROpt r' => respects Q r'
  | RChar _ | RStarClass _ | RPlusClass _ => True
  end.

Lemma mrel_respects Q r u cs cs' :
  mrel r u cs cs' -> respects Q r ->
  (forall n d, cs n = Some d -> Q n d) -> (forall n d, cs' n = Some d -> Q n d).
Proof.
  induction 1 as [| | |n' r u cs cs' Hr IH|r1 r2 u1 u2 cs cs1 cs2 Hr1 IH1 Hr2 IH2
                 |r u cs cs' Hne Hr IH|]; simpl; intros Hresp Hcs; auto.
  - destruct Hresp as [Hbody Hresp]; intros n d.
    unfold caps_set; destruct (Nat.eqb n n') eqn:E.
    + apply Nat.eqb_eq in E; subst; intro Hd; injection Hd as <-; eapply Hbody; eassumption.
    + apply IH; assumption.
  - destruct Hresp; eauto.
  - apply IH; [assumption|].
    intros n d; unfold caps_clear; destruct (existsb _ _); [discriminate | apply Hcs].
Qed.

(** Greedy runs: a class star facing a maximal run of class characters
    first tries to take all of it. *)
Definition stops (p : ascii -> bool) (rest : list ascii) : Prop :=
  match rest with [] => True | c :: _ => p c = false end.

Lemma star_class_greedy p s u rest cs k x :
  s = u ++ rest -> Forall (fun c => p c = true) u -> stops p rest ->
  k rest cs = Some x -> star_class p s cs k = Some x.
Proof.
  intros -> Hu Hst Hk; induction Hu as [|c u Hc Hu IH]; simpl.
  - destruct rest as [|c rest]; simpl in *; [exact Hk|].
    rewrite Hst; exact Hk.
  - rewrite Hc, IH; reflexivity.
Qed.

Lemma star_class_ext p s cs k1 k2 :
  (forall s' cs', k1 s' cs' = k2 s' cs') -> star_class p s cs k1 = star_class p s cs k2.
Proof.
  intro E; induction s as [|c s IH]; simpl; [apply E|].
  destruct (p c); [rewrite IH, E|]; auto.
Qed.

Lemma rmatch_ext r : forall s cs k1 k2,
  (forall s' cs', k1 s' cs' = k2 s' cs') -> rmatch r s cs k1 = rmatch r s cs k2.
Proof.
  induction r as [c|p|p|n r IH|r1 IH1 r2 IH2|r IH]; intros s cs k1 k2 E; simpl.
  - destruct s; [reflexivity|]; destruct (Ascii.eqb c a); auto.
  - apply star_class_ext; exact E.
  - destruct s; [reflexivity|]; destruct (p a); [apply star_class_ext|]; auto.
  - apply IH; intros; apply E.
  - apply IH1; intros; apply IH2; exact E.
  - rewrite (IH s (caps_clear cs (groups r)) _
               (fun s' cs' => if Nat.eqb (length s') (length s) then None else k2 s' cs')).
    + destruct (rmatch r s _ _); [reflexivity | apply E].
    + intros; destruct (Nat.eqb _ _); auto.
Qed.

(** The continuation [std::regex_match] starts from: accept only at the
    end of the input, recording the whole input in slot 0. *)
Definition accept_whole (l : list ascii) : cont :=
  fun rest cs => match rest with [] => Some (caps_set cs 0 l) | _ :: _ => None end.

Lemma regex_match_unfold r s :
  regex_match r s = rmatch r (list_ascii_of_string s) no_caps (accept_whole (list_ascii_of_string s)).
Proof.
  unfold regex_match; simpl; apply rmatch_ext.
  intros [|c rest] cs; simpl; [|reflexivity].
  rewrite Nat.sub_0_r, firstn_all; reflexivity.
Qed.

Lemma not_sep_spec c : not_sep c = true <-> c <> "#"%char /\ c <> "["%char.
Proof.
  unfold not_sep; rewrite negb_true_iff, orb_false_iff, !Ascii.eqb_neq.
  split; intros [H1 H2]; split; congruence.
Qed.

(** A name without separators is matched by its first component alone. *)
Lemma regex_match_plain (l : list ascii) :
  Forall (fun c => not_sep c = true) l ->
  rmatch FORMAT l no_caps (accept_whole l) = Some (caps_set (caps_set no_caps 1 l) 0 l).
Proof.
  intro Hl; unfold FORMAT; simpl.
  apply (star_class_greedy _ _ l []); [symmetry; apply app_nil_r | exact Hl | exact I |].
  simpl; rewrite Nat.sub_0_r, firstn_all; reflexivity.
Qed.

(** ** The parts of [FORMAT] *)

Definition first_component : regex := RGroup 1 (RStarClass not_sep).
Definition second_component : regex := ROpt (RSeq (RChar "#") (RGroup 2 (RStarClass not_sep))).
Definition third_body : regex := RSeq (RChar "#") (RGroup 3 (RStarClass not_sep)).
Definition phase_body : regex := RSeq (RChar "#") (RGroup 4 (RPlusClass is_digit)).
Definition range_part : regex :=
  ROpt (RSeq (RChar "[")
          (RSeq (RGroup 5 (RPlusClass is_digit))
          (RSeq (RSeq (RChar "-") (RGroup 6 (RPlusClass is_digit)))
                (RChar "]")))).

Lemma FORMAT_parts :
  FORMAT = RSeq first_component
             (RSeq second_component (RSeq (ROpt third_body) (RSeq (ROpt phase_body) range_part))).
Proof. reflexivity. Qed.

Lemma rmatch_seq r1 r2 s cs k :
  rmatch (RSeq r1 r2) s cs k = rmatch r1 s cs (fun s' cs' => rmatch r2 s' cs' k).
Proof. reflexivity. Qed.

Lemma rmatch_opt_cases r s cs k x :
  rmatch (ROpt r) s cs k = Some x ->
  rmatch r s (caps_clear cs (groups r))
    (fun s' cs' => if Nat.eqb (length s') (length s) then None else k s' cs') = Some x
  \/ (rmatch r s (caps_clear cs (groups r))
        (fun s' cs' => if Nat.eqb (length s') (length s) then None else k s' cs') = None
      /\ k s cs = Some x).
Proof. simpl; destruct (rmatch r s _ _); auto. Qed.

Lemma rmatch_opt_fallback r s cs k x :
  k s cs = Some x -> exists y, rmatch (ROpt r) s cs k = Some y.
Proof. intro H; simpl; destruct (rmatch r s _ _); eauto. Qed.

Lemma accept_whole_inv l s cs x :
  accept_whole l s cs = Some x -> s = [] /\ x = caps_set cs 0 l.
Proof. destruct s; simpl; intro H; [injection H as <-; auto | discriminate]. Qed.

Lemma is_digit_not_sep c : is_digit c = true -> not_sep c = true.
Proof. destruct c as [[] [] [] [] [] [] [] []]; vm_compute; congruence. Qed.

Lemma third_body_captures u cs cs' : mrel third_body u cs cs' -> cs' 3 <> None.
Proof.
  intro H; inversion H; subst.
  match goal with Hg : mrel (RGroup 3 _) _ _ _ |- _ => inversion Hg; subst end.
  unfold caps_set; simpl; discriminate.
Qed.

Lemma phase_body_shape u cs cs' :
  mrel phase_body u cs cs' ->
  exists d, u = "#"%char :: d /\ d <> [] /\ Forall (fun c => is_digit c = true) d.
Proof.
  intro H; inversion H; subst.
  match goal with Hc : mrel (RChar _) _ _ _ |- _ => inversion Hc; subst end.
  match goal with Hg : mrel (RGroup 4 _) _ _ _ |- _ => inversion Hg; subst end.
  match goal with Hp : mrel (RPlusClass _) _ _ _ |- _ => inversion Hp; subst end.
  eexists; repeat split; [discriminate | constructor; assumption].
Qed.

(** The priority argument: group 3 is tried before group 4 at the same
    place and accepts whatever digits group 4 would take, so a match with a
    phase block always has a third component. *)
Lemma phase_block_needs_third (l : list ascii) (X : caps) :
  rmatch FORMAT l no_caps (accept_whole l) = Some X -> X 4 <> None -> X 3 <> None.
Proof.
  set (K := accept_whole l).
  rewrite FORMAT_parts; intros H H4.
  destruct (rmatch_sound first_component l no_caps
              (fun s c => rmatch (RSeq second_component
                 (RSeq (ROpt third_body) (RSeq (ROpt phase_body) range_part))) s c K) X H)
    as (u1 & s1 & c1 & _ & Hr1 & H1).
  destruct (rmatch_sound second_component s1 c1
              (fun s c => rmatch (RSeq (ROpt third_body)
                 (RSeq (ROpt phase_body) range_part)) s c K) X H1)
    as (u2 & s2 & c2 & _ & Hr2 & H2).
  cbv beta in H2.
  assert (Hc2 : c2 4 = None).
  { rewrite (mrel_other _ _ _ _ 4 Hr2), (mrel_other _ _ _ _ 4 Hr1);
      [reflexivity | simpl; intuition discriminate ..]. }
  rewrite rmatch_seq in H2.
  destruct (rmatch_opt_cases _ _ _ _ _ H2) as [H3 | [H3none H3]].
  - destruct (rmatch_sound _ _ _ _ _ H3) as (u3 & s3 & c3 & _ & Hr3 & Hk3).
    destruct (Nat.eqb (length s3) (length s2)); [discriminate|].
    destruct (rmatch_sound _ _ _ _ _ Hk3) as (u4 & s4 & c4 & _ & Hr4 & Hk4).
    destruct (accept_whole_inv _ _ _ _ Hk4) as [_ ->].
    unfold caps_set; simpl.
    rewrite (mrel_other _ _ _ _ 3 Hr4) by (simpl; intuition discriminate).
    eapply third_body_captures; exact Hr3.
  - rewrite rmatch_seq in H3.
    destruct (rmatch_opt_cases _ _ _ _ _ H3) as [H4b | [_ H5]].
    + exfalso.
      destruct (rmatch_sound _ _ _ _ _ H4b) as (u4 & s4 & c4 & Hs2 & Hr4 & Hk4).
      cbv beta in Hk4.
      destruct (Nat.eqb (length s4) (length s2)) eqn:Hlen; [discriminate|].
      destruct (rmatch_sound _ _ _ _ _ Hk4) as (u5 & s5 & c5 & Hs4 & Hr5 & Hk5).
      destruct (accept_whole_inv _ _ _ _ Hk5) as [-> _].
      destruct (phase_body_shape _ _ _ Hr4) as (d & -> & _ & Hd).
      set (c3' := caps_set (caps_clear c2 (groups third_body)) 3 d).
      assert (Hr3 : mrel third_body ("#"%char :: d) (caps_clear c2 (groups third_body)) c3').
      { apply (mr_seq _ _ ["#"%char] d _ (caps_clear c2 (groups third_body))); [constructor|].
        constructor; constructor.
        eapply Forall_impl; [|exact Hd]; intros c; apply is_digit_not_sep. }
      destruct (mrel_any_caps _ _ _ _ Hr5 c3') as [c5' Hr5'].
      destruct (rmatch_complete _ _ _ _ Hr5' [] K (caps_set c5' 0 l) eq_refl) as [y5 Hy5].
      rewrite <- Hs4 in Hy5.
      destruct (rmatch_opt_fallback phase_body s4 c3' (fun s' cs' => rmatch range_part s' cs' K) y5 Hy5) as [y4 Hy4].
      destruct (rmatch_complete _ _ _ _ Hr3 s4
                  (fun s' cs' => if Nat.eqb (length s') (length s2) then None
                                 else rmatch (RSeq (ROpt phase_body) range_part) s' cs' K)
                  y4) as [y3 Hy3].
      { rewrite Hlen; exact Hy4. }
      rewrite <- Hs2 in Hy3; rewrite Hy3 in H3none; discriminate.
    + destruct (rmatch_sound _ _ _ _ _ H5) as (u5 & s5 & c5 & _ & Hr5 & Hk5).
      destruct (accept_whole_inv _ _ _ _ Hk5) as [_ ->].
      exfalso; apply H4; unfold caps_set; simpl.
      rewrite (mrel_other _ _ _ _ 4 Hr5) by (simpl; intuition discriminate).
      exact Hc2.
Qed.

(** ** Numeral captures *)

Definition numeral_slot (n : nat) : Prop :=
  n = PHASE_BLOCK_MATCH \/ n = RANGE_START_MATCH \/ n = RANGE_END_MATCH.

(** Slots 4, 5 and 6 only ever hold non-empty runs of digits. *)
Lemma format_numeral_captures (s : string) (X : caps) :
  regex_match FORMAT s = Some X ->
  forall n d, numeral_slot n -> X n = Some d ->
  d <> [] /\ Forall (fun c => is_digit c = true) d.
Proof.
  rewrite regex_match_unfold; intros H n d Hn Hd.
  destruct (rmatch_sound _ _ _ _ _ H) as (u & s' & cs' & _ & Hr & Hk).
  destruct (accept_whole_inv _ _ _ _ Hk) as [_ ->].
  set (Q := fun (m : nat) (v : list ascii) =>
              numeral_slot m -> v <> [] /\ Forall (fun c => is_digit c = true) v).
  assert (HQ : forall m v, cs' m = Some v -> Q m v).
  { apply (mrel_respects Q FORMAT u no_caps cs' Hr).
    - unfold Q, numeral_slot, PHASE_BLOCK_MATCH, RANGE_START_MATCH, RANGE_END_MATCH;
        simpl; repeat match goal with |- _ /\ _ => split end;
        first [ exact I
              | intros v cs1 cs2 Hv Hm;
                first [ destruct Hm as [Hm|[Hm|Hm]]; discriminate
                      | inversion Hv; subst; split; [discriminate | constructor; assumption] ] ].
    - intros m v Hv; discriminate. }
  unfold caps_set in Hd.
  destruct Hn as [-> | [-> | ->]]; simpl in Hd; apply (HQ _ _ Hd); unfold numeral_slot; auto.
Qed.

Lemma is_digit_facts c :
  is_digit c = true ->
  is_space c = false /\ Ascii.eqb c "-" = false /\ Ascii.eqb c "+" = false
  /\ (0 <= digit_value c <= 9)%Z.
Proof.
  intro H; unfold is_digit in H; apply andb_true_iff in H as [H1 H2].
  apply Nat.leb_le in H1, H2.
  destruct c as [[] [] [] [] [] [] [] []]; vm_compute in H1, H2 |- *;
    try lia; repeat split; discriminate.
Qed.

Lemma take_digits_all d :
  Forall (fun c => is_digit c = true) d -> take_digits d = d.
Proof. induction 1 as [|c d Hc Hd IH]; simpl; [reflexivity | now rewrite Hc, IH]. Qed.

Lemma digits_value_acc_nonneg d acc :
  Forall (fun c => is_digit c = true) d -> (0 <= acc)%Z ->
  (0 <= fold_left (fun acc c => acc * 10 + digit_value c)%Z d acc)%Z.
Proof.
  intro Hd; revert acc; induction Hd as [|c d Hc Hd IH]; intros acc Ha; simpl; [exact Ha|].
  apply IH; destruct (is_digit_facts c Hc) as (_ & _ & _ & Hv); lia.
Qed.

(** [std::stoll] on a run of digits reads its value, failing only beyond
    the [int64_t] range. *)
Lemma stoll_digits d :
  d <> [] -> Forall (fun c => is_digit c = true) d ->
  (0 <= digits_value d)%Z
  /\ stoll (string_of_list_ascii d)
     = if (digits_value d <=? LLONG_MAX)%Z then Ok (digits_value d) else Err OutOfRange.
Proof.
  intros Hne Hd.
  assert (Hv : (0 <= digits_value d)%Z) by (apply digits_value_acc_nonneg; [exact Hd | lia]).
  split; [exact Hv|].
  unfold stoll; rewrite list_ascii_of_string_of_list_ascii.
  destruct d as [|c d']; [contradiction|].
  pose proof Hd as Hd'; inversion Hd' as [|? ? Hc _]; subst.
  destruct (is_digit_facts c Hc) as (Hsp & Hm & Hp & _).
  simpl skip_space; rewrite Hsp, Hm, Hp.
  rewrite (take_digits_all (c :: d') Hd).
  replace (LLONG_MIN <=? digits_value (c :: d'))%Z with true
    by (symmetry; apply Z.leb_le; unfold LLONG_MIN; lia).
  reflexivity.
Qed.

Lemma parse_path_name_sense s r :
  parse_path_name s = Ok r -> pm_sense r = parse_sense s.
Proof.
  unfold parse_path_name, parse_sense; destruct (regex_match FORMAT s) as [X|]; intro Hp.
  - unfold matched in *.
    destruct (X PHASE_BLOCK_MATCH), (X LOCUS_MATCH_WITH_HAPLOTYPE),
      (X LOCUS_MATCH_WITHOUT_HAPLOTYPE), (X RANGE_START_MATCH), (X RANGE_END_MATCH);
    repeat match goal with
           | H : bind ?m _ = Ok _ |- _ =>
               let a := fresh "a" in
               apply bind_ok in H; destruct H as [a [_ H]];
               try (lazymatch type of a with
                    | (_ * _ * _)%type => destruct a as [[? ?] ?]
                    end)
           | H : Ok _ = Ok _ |- _ => injection H as <-
           end; reflexivity.
  - injection Hp as <-; reflexivity.
Qed.

(** ** Decimal printing read back *)

Definition digit_step (acc : Z) (c : ascii) : Z := (acc * 10 + digit_value c)%Z.

Lemma digit_char_value (k : Z) :
  (0 <= k < 10)%Z ->
  is_digit (ascii_of_nat (Z.to_nat k + 48)) = true
  /\ digit_value (ascii_of_nat (Z.to_nat k + 48)) = k.
Proof.
  intro Hk; unfold is_digit, digit_value.
  rewrite nat_ascii_embedding by lia.
  split; [apply andb_true_iff; split; apply Nat.leb_le; lia | lia].
Qed.

Lemma digits_rev_fuel_spec (f : nat) : forall (n : Z) (acc : list ascii),
  (0 <= n < 10 ^ Z.of_nat f)%Z -> (1 <= f)%nat ->
  Forall (fun c => is_digit c = true) acc ->
  digits_rev_fuel f n acc <> []
  /\ Forall (fun c => is_digit c = true) (digits_rev_fuel f n acc)
  /\ fold_left digit_step (digits_rev_fuel f n acc) 0%Z = fold_left digit_step acc n.
Proof.
  induction f as [|f IH]; intros n acc Hn Hf Hacc; [lia|].
  assert (Hm : (0 <= n mod 10 < 10)%Z) by (apply Z.mod_pos_bound; lia).
  destruct (digit_char_value (n mod 10) Hm) as [Hd Hv].
  simpl digits_rev_fuel.
  destruct (n <? 10)%Z eqn:Hlt.
  - apply Z.ltb_lt in Hlt.
    repeat split; [discriminate | constructor; assumption |].
    simpl; unfold digit_step at 2; rewrite Hv, Z.mod_small by lia; reflexivity.
  - apply Z.ltb_ge in Hlt.
    destruct f as [|f'].
    + simpl in Hn; lia.
    + assert (Hn' : (0 <= n / 10 < 10 ^ Z.of_nat (S f'))%Z).
      { split; [apply Z.div_pos; lia|].
        apply Z.div_lt_upper_bound; [lia|].
        rewrite (Nat2Z.inj_succ (S f')), Z.pow_succ_r in Hn by lia; lia. }
      destruct (IH (n / 10)%Z _ Hn' ltac:(lia) (Forall_cons _ Hd Hacc)) as (Hne & Hall & Hval).
      repeat split; [exact Hne | exact Hall |].
      rewrite Hval; simpl; unfold digit_step at 2; rewrite Hv.
      rewrite (Z.div_mod n 10) at 3 by lia.
      f_equal; lia.
Qed.

Lemma nonneg_digits_spec (z : Z) :
  (0 <= z)%Z ->
  nonneg_digits z <> [] /\ Forall (fun c => is_digit c = true) (nonneg_digits z)
  /\ digits_value (nonneg_digits z) = z.
Proof.
  intro Hz; unfold nonneg_digits, digits_value.
  assert (Hb : (z < 10 ^ Z.of_nat (S (Z.to_nat (Z.log2 z))))%Z).
  { rewrite Nat2Z.inj_succ, Z2Nat.id by apply Z.log2_nonneg.
    destruct (Z.eq_dec z 0) as [->|Hz0]; [reflexivity|].
    apply Z.lt_le_trans with (2 ^ Z.succ (Z.log2 z))%Z.
    - apply Z.log2_spec; lia.
    - apply Z.pow_le_mono_l; split; [lia | lia]. }
  destruct (digits_rev_fuel_spec (S (Z.to_nat (Z.log2 z))) z [] ltac:(lia) ltac:(lia)
              (Forall_nil _)) as (Hne & Hall & Hval).
  repeat split; [exact Hne | exact Hall | exact Hval].
Qed.

Lemma int64_to_string_nonneg (z : Z) :
  (0 <= z)%Z -> list_ascii_of_string (int64_to_string z) = nonneg_digits z.
Proof.
  intro Hz; unfold int64_to_string.
  replace (z <? 0)%Z with false by (symmetry; apply Z.ltb_ge; lia).
  apply list_ascii_of_string_of_list_ascii.
Qed.

Lemma stoll_int64_to_string (z : Z) :
  (0 <= z <= LLONG_MAX)%Z -> stoll (string_of_list_ascii (nonneg_digits z)) = Ok z.
Proof.
  intro Hz; destruct (nonneg_digits_spec z ltac:(lia)) as (Hne & Hall & Hval).
  destruct (stoll_digits _ Hne Hall) as [_ ->].
  rewrite Hval; replace (z <=? LLONG_MAX)%Z with true by (symmetry; apply Z.leb_le; lia).
  reflexivity.
Qed.

(** ** Matching a built reference name, step by step *)

Lemma rmatch_char_hit c s cs k : rmatch (RChar c) (c :: s) cs k = k s cs.
Proof. simpl; rewrite Ascii.eqb_refl; reflexivity. Qed.

Lemma rmatch_group_star n p u rest cs k x :
  Forall (fun c => p c = true) u -> stops p rest ->
  k rest (caps_set cs n u) = Some x ->
  rmatch (RGroup n (RStarClass p)) (u ++ rest) cs k = Some x.
Proof.
  intros Hu Hst Hk.
  change (star_class p (u ++ rest) cs
            (fun s' cs' => k s' (caps_set cs' n (firstn (length (u ++ rest) - length s') (u ++ rest))))
          = Some x).
  apply (star_class_greedy p _ u rest); auto.
  rewrite firstn_consumed; exact Hk.
Qed.

Lemma rmatch_group_plus n p c u rest cs k x :
  p c = true -> Forall (fun c => p c = true) u -> stops p rest ->
  k rest (caps_set cs n (c :: u)) = Some x ->
  rmatch (RGroup n (RPlusClass p)) ((c :: u) ++ rest) cs k = Some x.
Proof.
  intros Hc Hu Hst Hk.
  change ((if p c then star_class p (u ++ rest)
              cs (fun s' cs' => k s' (caps_set cs' n
                    (firstn (length ((c :: u) ++ rest) - length s') ((c :: u) ++ rest))))
           else None) = Some x).
  rewrite Hc.
  apply (star_class_greedy p _ u rest); auto.
  rewrite (firstn_consumed (c :: u) rest); exact Hk.
Qed.

Lemma rmatch_opt_take r s cs k x :
  rmatch r s (caps_clear cs (groups r))
    (fun s' cs' => if Nat.eqb (length s') (length s) then None else k s' cs') = Some x ->
  rmatch (ROpt r) s cs k = Some x.
Proof. intro H; simpl; rewrite H; reflexivity. Qed.

Lemma rmatch_opt_char_skip c r s cs k :
  match s with [] => True | d :: _ => Ascii.eqb c d = false end ->
  rmatch (ROpt (RSeq (RChar c) r)) s cs k = k s cs.
Proof. destruct s as [|d s]; simpl; [reflexivity | intros ->; reflexivity]. Qed.

(** What follows the sample and locus components. *)
Definition format_tail : regex := RSeq (ROpt third_body) (RSeq (ROpt phase_body) range_part).

Definition range_text (a b : list ascii) : list ascii :=
  "["%char :: a ++ ("-"%char :: b) ++ ["]"%char].

Lemma format_tail_empty c k : rmatch format_tail [] c k = k [] c.
Proof. reflexivity. Qed.

Lemma format_tail_range a0 a b0 b c k x :
  Forall (fun c => is_digit c = true) (a0 :: a) ->
  Forall (fun c => is_digit c = true) (b0 :: b) ->
  k [] (caps_set (caps_set (caps_clear c [5; 6]) 5 (a0 :: a)) 6 (b0 :: b)) = Some x ->
  rmatch format_tail (range_text (a0 :: a) (b0 :: b)) c k = Some x.
Proof.
  intros Ha Hb Hk; inversion Ha as [|? ? Ha0 Ha']; inversion Hb as [|? ? Hb0 Hb'].
  change (rmatch format_tail ("["%char :: (a0 :: a) ++ "-"%char :: (b0 :: b) ++ ["]"%char]) c k
          = Some x).
  unfold format_tail, third_body, phase_body.
  rewrite rmatch_seq, rmatch_opt_char_skip by reflexivity.
  rewrite rmatch_seq, rmatch_opt_char_skip by reflexivity.
  unfold range_part; apply rmatch_opt_take.
  rewrite rmatch_seq, rmatch_char_hit, rmatch_seq.
  apply rmatch_group_plus; [exact Ha0 | exact Ha' | reflexivity |].
  rewrite rmatch_seq, rmatch_seq, rmatch_char_hit.
  apply rmatch_group_plus; [exact Hb0 | exact Hb' | reflexivity |].
  rewrite rmatch_char_hit.
  exact Hk.
Qed.

Lemma format_head_with_sample l sm lc R x :
  l = sm ++ "#"%char :: lc ++ R ->
  Forall (fun c => not_sep c = true) sm -> Forall (fun c => not_sep c = true) lc ->
  stops not_sep R ->
  rmatch format_tail R (caps_set (caps_clear (caps_set no_caps 1 sm) [2]) 2 lc)
    (accept_whole l) = Some x ->
  rmatch FORMAT l no_caps (accept_whole l) = Some x.
Proof.
  intros -> Hs Hl HR Ht.
  rewrite FORMAT_parts, rmatch_seq; unfold first_component.
  apply rmatch_group_star; [exact Hs | reflexivity |].
  rewrite rmatch_seq; unfold second_component; apply rmatch_opt_take.
  rewrite rmatch_seq, rmatch_char_hit.
  apply rmatch_group_star; [exact Hl | exact HR |].
  replace (Nat.eqb (length R) (length ("#"%char :: lc ++ R))) with false
    by (symmetry; apply Nat.eqb_neq; simpl; rewrite length_app; lia).
  exact Ht.
Qed.

Lemma format_head_no_sample l lc R x :
  l = lc ++ R ->
  Forall (fun c => not_sep c = true) lc ->
  match R with [] => True | d :: _ => d = "["%char end ->
  rmatch format_tail R (caps_set no_caps 1 lc) (accept_whole l) = Some x ->
  rmatch FORMAT l no_caps (accept_whole l) = Some x.
Proof.
  intros -> Hl HR Ht.
  rewrite FORMAT_parts, rmatch_seq; unfold first_component.
  apply rmatch_group_star; [exact Hl | destruct R; simpl in *; [exact I | subst; reflexivity] |].
  rewrite rmatch_seq; unfold second_component.
  rewrite rmatch_opt_char_skip by (destruct R; simpl in *; [exact I | subst; reflexivity]).
  exact Ht.
Qed.

(** The text the builder writes for a reference path. *)
Lemma build_reference_text sample locus sr :
  locus <> NO_LOCUS_NAME ->
  exists name,
    create_path_name SENSE_REFERENCE sample locus NO_HAPLOTYPE NO_PHASE_BLOCK sr = Ok name
    /\ list_ascii_of_string name =
       (if String.eqb sample NO_SAMPLE_NAME then []
        else list_ascii_of_string sample ++ ["#"%char])
       ++ list_ascii_of_string locus
       ++ (if (fst sr =? -1)%Z && (snd sr =? -1)%Z then []
           else "["%char :: list_ascii_of_string (int64_to_string (fst sr))
                ++ (if (snd sr =? -1)%Z then []
                    else "-"%char :: list_ascii_of_string (int64_to_string (snd sr)))
                ++ ["]"%char]).
Proof.
  intro Hl; unfold create_path_name, NO_SUBRANGE, NO_END_POSITION, RANGE_START_SEPARATOR,
    RANGE_END_SEPARATOR, RANGE_TERMINATOR.
  replace (String.eqb locus NO_LOCUS_NAME) with false
    by (symmetry; apply String.eqb_neq; exact Hl).
  destruct (String.eqb sample NO_SAMPLE_NAME); simpl;
    (eexists; split; [reflexivity|]);
    destruct sr as [a b]; simpl fst; simpl snd;
    destruct (a =? -1)%Z, (b =? -1)%Z; simpl;
    repeat progress (rewrite ?list_ascii_of_string_append; simpl);
    rewrite <- ?app_assoc, ?app_nil_r; reflexivity.
Qed.

(** ** The builder's text for every sense *)

Lemma create_path_name_text sense sample locus hap phase sr name :
  create_path_name sense sample locus hap phase sr = Ok name ->
  list_ascii_of_string name =
    (if String.eqb sample NO_SAMPLE_NAME then []
     else list_ascii_of_string sample ++ ["#"%char])
    ++ list_ascii_of_string locus
    ++ (if (hap =? -1)%Z then [] else "#"%char :: list_ascii_of_string (int64_to_string hap))
    ++ (if (phase =? -1)%Z then []
        else "#"%char :: list_ascii_of_string (int64_to_string phase))
    ++ (if (fst sr =? -1)%Z && (snd sr =? -1)%Z then []
        else "["%char :: list_ascii_of_string (int64_to_string (fst sr))
             ++ (if (snd sr =? -1)%Z then []
                 else "-"%char :: list_ascii_of_string (int64_to_string (snd sr)))
             ++ ["]"%char]).
Proof.
  unfold create_path_name, NO_SUBRANGE, NO_END_POSITION, NO_HAPLOTYPE, NO_PHASE_BLOCK,
    RANGE_START_SEPARATOR, RANGE_END_SEPARATOR, RANGE_TERMINATOR.
  destruct sr as [a b]; cbn [fst snd].
  destruct sense, (String.eqb sample NO_SAMPLE_NAME), (String.eqb locus NO_LOCUS_NAME),
    (hap =? -1)%Z, (phase =? -1)%Z; simpl; intro H; try discriminate;
    injection H as <-;
    destruct (a =? -1)%Z, (b =? -1)%Z; simpl;
    repeat progress (rewrite ?list_ascii_of_string_append; simpl);
    rewrite <- ?app_assoc, ?app_nil_r; reflexivity.
Qed.

(** What a successful build says about its fields. *)
Lemma create_path_name_valid sense sample locus hap phase sr name :
  create_path_name sense sample locus hap phase sr = Ok name ->
  locus <> NO_LOCUS_NAME
  /\ (sense = SENSE_HAPLOTYPE <-> phase <> NO_PHASE_BLOCK)
  /\ (sense = SENSE_HAPLOTYPE -> hap <> NO_HAPLOTYPE)
  /\ (sense = SENSE_GENERIC ->
        sample = NO_SAMPLE_NAME /\ hap = NO_HAPLOTYPE /\ phase = NO_PHASE_BLOCK).
Proof.
  unfold create_path_name.
  destruct (String.eqb_spec sample NO_SAMPLE_NAME), (String.eqb_spec locus NO_LOCUS_NAME),
    (Z.eqb_spec hap NO_HAPLOTYPE), (Z.eqb_spec phase NO_PHASE_BLOCK);
    destruct sense; simpl; intro H; try discriminate;
    repeat split; intros; try congruence; tauto.
Qed.

Lemma int64_to_string_not_sep (z : Z) :
  Forall (fun c => not_sep c = true) (list_ascii_of_string (int64_to_string z)).
Proof.
  unfold int64_to_string; rewrite list_ascii_of_string_of_list_ascii.
  destruct (z <? 0)%Z eqn:Hz.
  - apply Z.ltb_lt in Hz.
    destruct (nonneg_digits_spec (- z) ltac:(lia)) as (_ & Hd & _).
    constructor; [reflexivity|].
    eapply Forall_impl; [|exact Hd]; intro c; apply is_digit_not_sep.
  - apply Z.ltb_ge in Hz.
    destruct (nonneg_digits_spec z Hz) as (_ & Hd & _).
    eapply Forall_impl; [|exact Hd]; intro c; apply is_digit_not_sep.
Qed.

Lemma stoll_int64_round_trip (z : Z) :
  (LLONG_MIN <= z <= LLONG_MAX)%Z -> stoll (int64_to_string z) = Ok z.
Proof.
  intro Hz; unfold int64_to_string.
  destruct (z <? 0)%Z eqn:Hneg.
  - apply Z.ltb_lt in Hneg.
    destruct (nonneg_digits_spec (- z) ltac:(lia)) as (Hne & Hd & Hv).
    unfold stoll; rewrite list_ascii_of_string_of_list_ascii.
    simpl skip_space; cbv iota beta.
    replace (Ascii.eqb "-" "-") with true by reflexivity.
    rewrite (take_digits_all _ Hd).
    destruct (nonneg_digits (- z)) as [|d0 ds]; [contradiction|].
    rewrite Hv, Z.opp_involutive.
    replace ((LLONG_MIN <=? z)%Z && (z <=? LLONG_MAX)%Z) with true
      by (symmetry; apply andb_true_iff; split; apply Z.leb_le; lia).
    reflexivity.
  - apply Z.ltb_ge in Hneg; apply stoll_int64_to_string; lia.
Qed.

(** ** The bracket structure of an accepted name *)

Lemma mrel_no_open r u cs cs' :
  mrel r u cs cs' -> no_open r = true -> Forall (fun c => c <> "["%char) u.
Proof.
  assert (Hcls : forall (p : ascii -> bool) u, negb (p "["%char) = true ->
            Forall (fun c => p c = true) u -> Forall (fun c => c <> "["%char) u).
  { intros p v Hp Hv; eapply Forall_impl; [|exact Hv].
    intros c Hc ->; rewrite Hc in Hp; discriminate. }
  induction 1 as [c cs|p u cs Hu|p c u cs Hc Hu|n r u cs cs' Hr IH
                 |r1 r2 u1 u2 cs cs1 cs2 Hr1 IH1 Hr2 IH2|r u cs cs' Hne Hr IH|r cs];
    simpl; intro Hn.
  - constructor; [|constructor].
    intro E; subst; discriminate.
  - eapply Hcls; eassumption.
  - eapply Hcls; [exact Hn|]; constructor; assumption.
  - apply IH; exact Hn.
  - apply andb_true_iff in Hn as [Hn1 Hn2].
    apply Forall_app; split; [apply IH1 | apply IH2]; assumption.
  - apply IH; exact Hn.
  - constructor.
Qed.

Ltac invert_mrel :=
  repeat match goal with
         | H : mrel (RChar _) _ _ _ |- _ => inversion H; subst; clear H
         | H : mrel (RSeq _ _) _ _ _ |- _ => inversion H; subst; clear H
         | H : mrel (RGroup _ _) _ _ _ |- _ => inversion H; subst; clear H
         | H : mrel (RPlusClass _) _ _ _ |- _ => inversion H; subst; clear H
         end.

Lemma range_part_shape u cs cs' :
  mrel range_part u cs cs' ->
  (u = [] /\ cs' = cs)
  \/ exists a b, u = range_text a b /\ a <> [] /\ b <> []
       /\ Forall (fun c => is_digit c = true) a /\ Forall (fun c => is_digit c = true) b
       /\ cs' 5 = Some a /\ cs' 6 = Some b.
Proof.
  unfold range_part; intro H; inversion H; subst; [right | left; auto].
  invert_mrel.
  do 2 eexists; repeat split; try discriminate; try (constructor; assumption).
Qed.

Lemma format_shape u cs' :
  mrel FORMAT u no_caps cs' ->
  exists pre post, u = pre ++ post /\ Forall (fun c => c <> "["%char) pre
    /\ ((post = [] /\ cs' 5 = None /\ cs' 6 = None)
        \/ exists a b, post = range_text a b /\ a <> [] /\ b <> []
             /\ Forall (fun c => is_digit c = true) a /\ Forall (fun c => is_digit c = true) b
             /\ cs' 5 = Some a /\ cs' 6 = Some b).
Proof.
  rewrite FORMAT_parts; intro H.
  inversion H as [| | | |r1 r2 u1 w1 c0 c1 e1 H1 Hw1| |]; subst.
  inversion Hw1 as [| | | |r3 r4 u2 w2 f1 c2 e2 H2 Hw2| |]; subst.
  inversion Hw2 as [| | | |r5 r6 u3 w3 f2 c3 e3 H3 Hw3| |]; subst.
  inversion Hw3 as [| | | |r7 r8 u4 u5 f3 c4 e4 H4 H5| |]; subst.
  assert (Hc4 : forall n, n = 5 \/ n = 6 -> c4 n = None).
  { intros n Hn.
    rewrite (mrel_other _ _ _ _ n H4), (mrel_other _ _ _ _ n H3), (mrel_other _ _ _ _ n H2),
      (mrel_other _ _ _ _ n H1); [reflexivity | ..];
      simpl; destruct Hn as [-> | ->]; intuition discriminate. }
  exists (u1 ++ u2 ++ u3 ++ u4), u5; split; [rewrite <- !app_assoc; reflexivity|].
  split.
  { repeat (apply Forall_app; split);
      (eapply mrel_no_open; [eassumption | reflexivity]). }
  destruct (range_part_shape _ _ _ H5) as [[-> ->] | (a & b & Hu & Hrest)].
  - left; repeat split; apply Hc4; auto.
  - right; exists a, b; auto.
Qed.

Lemma split_at_unique (c : ascii) p1 t1 p2 t2 :
  Forall (fun x => x <> c) p1 -> Forall (fun x => x <> c) t1 ->
  p1 ++ c :: t1 = p2 ++ c :: t2 -> p1 = p2 /\ t1 = t2.
Proof.
  intros H1; revert p2; induction H1 as [|a p1 Ha Hp1 IH]; intros p2 Ht E.
  - destruct p2 as [|d p2]; simpl in E; inversion E; subst; [auto|].
    exfalso; rewrite Forall_forall in Ht.
    eapply Ht; [apply in_or_app; right; left; reflexivity | reflexivity].
  - destruct p2 as [|d p2]; simpl in E; inversion E; subst; [congruence|].
    destruct (IH p2 Ht ltac:(assumption)) as [-> ->]; auto.
Qed.

(** Where an accepted name may hold an opening bracket. *)
Lemma format_bracket (s : string) (X : caps) :
  regex_match FORMAT s = Some X ->
  (X RANGE_START_MATCH = None /\ X RANGE_END_MATCH = None
   /\ Forall (fun c => c <> "["%char) (list_ascii_of_string s))
  \/ exists pre a b, list_ascii_of_string s = pre ++ range_text a b
       /\ Forall (fun c => c <> "["%char) pre /\ a <> [] /\ b <> []
       /\ Forall (fun c => is_digit c = true) a /\ Forall (fun c => is_digit c = true) b
       /\ X RANGE_START_MATCH = Some a /\ X RANGE_END_MATCH = Some b.
Proof.
  rewrite regex_match_unfold; intro H.
  destruct (rmatch_sound _ _ _ _ _ H) as (u & s' & cs' & Hs & Hr & Hk).
  destruct (accept_whole_inv _ _ _ _ Hk) as [-> ->].
  rewrite app_nil_r in Hs.
  destruct (format_shape _ _ Hr) as (pre & post & -> & Hpre & [(-> & H5 & H6) | Hrng]).
  - left; rewrite Hs, app_nil_r; unfold caps_set; simpl; auto.
  - destruct Hrng as (a & b & -> & Hrest).
    right; exists pre, a, b; rewrite Hs; unfold caps_set; simpl; auto.
Qed.

(** ** More matching steps *)

Ltac drop_len_check :=
  match goal with
  | |- context [Nat.eqb (Datatypes.length ?a) (Datatypes.length ?b)] =>
      replace (Nat.eqb (Datatypes.length a) (Datatypes.length b)) with false
        by (symmetry; apply Nat.eqb_neq; repeat progress (simpl; rewrite ?length_app); lia)
  end.

Lemma format_head_three l c1 c2 c3 R x :
  l = c1 ++ "#"%char :: c2 ++ "#"%char :: c3 ++ R ->
  Forall (fun c => not_sep c = true) c1 -> Forall (fun c => not_sep c = true) c2 ->
  Forall (fun c => not_sep c = true) c3 -> stops not_sep R ->
  rmatch (RSeq (ROpt phase_body) range_part) R
    (caps_set (caps_clear (caps_set (caps_clear (caps_set no_caps 1 c1) [2]) 2 c2) [3]) 3 c3)
    (accept_whole l) = Some x ->
  rmatch FORMAT l no_caps (accept_whole l) = Some x.
Proof.
  intros -> H1 H2 H3 HR Ht.
  rewrite FORMAT_parts, rmatch_seq; unfold first_component.
  apply rmatch_group_star; [exact H1 | reflexivity |].
  rewrite rmatch_seq; unfold second_component; apply rmatch_opt_take.
  rewrite rmatch_seq, rmatch_char_hit.
  apply rmatch_group_star; [exact H2 | reflexivity |].
  drop_len_check.
  rewrite rmatch_seq; unfold third_body; apply rmatch_opt_take.
  rewrite rmatch_seq, rmatch_char_hit.
  apply rmatch_group_star; [exact H3 | exact HR |].
  drop_len_check.
  exact Ht.
Qed.

Lemma phase_then_range d0 d R c k x :
  Forall (fun c => is_digit c = true) (d0 :: d) -> stops is_digit R ->
  rmatch range_part R (caps_set (caps_clear c [4]) 4 (d0 :: d)) k = Some x ->
  rmatch (RSeq (ROpt phase_body) range_part) ("#"%char :: (d0 :: d) ++ R) c k = Some x.
Proof.
  intros Hd HR Hk; inversion Hd as [|? ? Hd0 Hd'].
  rewrite rmatch_seq; unfold phase_body; apply rmatch_opt_take.
  rewrite rmatch_seq, rmatch_char_hit.
  apply rmatch_group_plus; [exact Hd0 | exact Hd' | exact HR |].
  drop_len_check.
  exact Hk.
Qed.

Lemma no_phase_then_range R c k :
  match R with [] => True | d :: _ => Ascii.eqb "#" d = false end ->
  rmatch (RSeq (ROpt phase_body) range_part) R c k = rmatch range_part R c k.
Proof. intro HR; rewrite rmatch_seq; unfold phase_body; rewrite rmatch_opt_char_skip; auto. Qed.

Lemma range_part_take a0 a b0 b c k x :
  Forall (fun c => is_digit c = true) (a0 :: a) ->
  Forall (fun c => is_digit c = true) (b0 :: b) ->
  k [] (caps_set (caps_set (caps_clear c [5; 6]) 5 (a0 :: a)) 6 (b0 :: b)) = Some x ->
  rmatch range_part (range_text (a0 :: a) (b0 :: b)) c k = Some x.
Proof.
  intros Ha Hb Hk; inversion Ha as [|? ? Ha0 Ha']; inversion Hb as [|? ? Hb0 Hb'].
  change (rmatch range_part ("["%char :: (a0 :: a) ++ "-"%char :: (b0 :: b) ++ ["]"%char]) c k
          = Some x).
  unfold range_part; apply rmatch_opt_take.
  rewrite rmatch_seq, rmatch_char_hit, rmatch_seq.
  apply rmatch_group_plus; [exact Ha0 | exact Ha' | reflexivity |].
  rewrite rmatch_seq, rmatch_seq, rmatch_char_hit.
  apply rmatch_group_plus; [exact Hb0 | exact Hb' | reflexivity |].
  rewrite rmatch_char_hit.
  exact Hk.
Qed.

Lemma count_hash_class (p : ascii -> bool) u :
  p "#"%char = false -> Forall (fun c => p c = true) u ->
  count_occ Ascii.ascii_dec u "#"%char = 0.
Proof.
  intros Hp Hu; apply count_occ_not_In; intro Hin.
  rewrite Forall_forall in Hu; specialize (Hu _ Hin); congruence.
Qed.

Lemma mrel_hash_count r u cs cs' :
  mrel r u cs cs' -> classes_no_hash r = true ->
  (count_occ Ascii.ascii_dec u "#"%char <= hash_bound r)%nat.
Proof.
  induction 1 as [c cs|p u cs Hu|p c u cs Hc Hu|n r u cs cs' Hr IH
                 |r1 r2 u1 u2 cs cs1 cs2 Hr1 IH1 Hr2 IH2|r u cs cs' Hne Hr IH|r cs];
    intro Hn; simpl in Hn.
  - simpl; destruct (Ascii.ascii_dec c "#"%char) as [->|Hc]; simpl; [lia|].
    destruct (Ascii.eqb_spec c "#"%char); [contradiction | lia].
  - apply negb_true_iff in Hn.
    rewrite (count_hash_class p u Hn Hu); simpl; lia.
  - apply negb_true_iff in Hn.
    rewrite (count_hash_class p (c :: u) Hn) by (constructor; assumption); simpl; lia.
  - apply IH; exact Hn.
  - apply andb_true_iff in Hn as [Hn1 Hn2].
    simpl; rewrite count_occ_app; specialize (IH1 Hn1); specialize (IH2 Hn2); lia.
  - apply IH; exact Hn.
  - simpl; lia.
Qed.

Lemma format_hash_count (s : string) (X : caps) :
  regex_match FORMAT s = Some X ->
  (count_occ Ascii.ascii_dec (list_ascii_of_string s) "#"%char <= 3)%nat.
Proof.
  rewrite regex_match_unfold; intro H.
  destruct (rmatch_sound _ _ _ _ _ H) as (u & s' & cs' & Hs & Hr & Hk).
  destruct (accept_whole_inv _ _ _ _ Hk) as [-> _].
  rewrite Hs, app_nil_r.
  exact (mrel_hash_count _ _ _ _ Hr eq_refl).
Qed.

Lemma format_open_count (s : string) (X : caps) :
  regex_match FORMAT s = Some X ->
  (count_occ Ascii.ascii_dec (list_ascii_of_string s) "["%char <= 1)%nat
  /\ (In "["%char (list_ascii_of_string s) ->
      exists pre, list_ascii_of_string s = pre ++ ["]"%char]).
Proof.
  intro Hm.
  assert (Hz : forall l, Forall (fun c => c <> "["%char) l ->
                 count_occ Ascii.ascii_dec l "["%char = 0).
  { intros l Hl; apply count_occ_not_In; intro Hin.
    rewrite Forall_forall in Hl; exact (Hl _ Hin eq_refl). }
  assert (Hdig : forall d, Forall (fun c => is_digit c = true) d ->
                   Forall (fun c => c <> "["%char) d).
  { intros d Hd; eapply Forall_impl; [|exact Hd]; intros c Hc ->; discriminate. }
  destruct (format_bracket s X Hm)
    as [(_ & _ & Hno) | (pre & a & b & Hs & Hpre & _ & _ & Da & Db & _ & _)].
  - rewrite (Hz _ Hno); split; [lia|].
    intro Hin; rewrite Forall_forall in Hno; exfalso; exact (Hno _ Hin eq_refl).
  - rewrite Hs; unfold range_text; split.
    + rewrite count_occ_app, (Hz _ Hpre); simpl.
      rewrite count_occ_app, (Hz _ (Hdig _ Da)); simpl.
      rewrite count_occ_app, (Hz _ (Hdig _ Db)); simpl; lia.
    + intros _; exists (pre ++ "["%char :: a ++ "-"%char :: b).
      rewrite <- app_assoc; simpl; rewrite <- app_assoc; reflexivity.
Qed.

(** ** Claims *)

(** C2 (counterexample): the grammar does not accept every string: "a["
    fails to match, so it is classified GENERIC. *)
Lemma grammar_rejects_open_bracket :
  regex_match FORMAT "a[" = None /\ parse_sense "a[" = SENSE_GENERIC.
Proof. split; vm_compute; reflexivity. Qed.

(** C2 (amended): a name with more than three '#', with more than one '[',
    or with a '[' but no final ']' fails to match the grammar; and every
    name that fails to match is parsed without an error as GENERIC, with the
    whole name as locus and every other field absent, by the all-fields
    parser and each single-field parser. *)
Theorem nonmatching_name_is_generic (s : string) :
  ((3 < count_occ Ascii.ascii_dec (list_ascii_of_string s) "#"%char)%nat
   \/ (1 < count_occ Ascii.ascii_dec (list_ascii_of_string s) "["%char)%nat
   \/ (In "["%char (list_ascii_of_string s)
       /\ forall pre, list_ascii_of_string s <> pre ++ ["]"%char])
   -> regex_match FORMAT s = None)
  /\ (regex_match FORMAT s = None ->
      parse_path_name s
        = Ok (mk_path_meta SENSE_GENERIC NO_SAMPLE_NAME s NO_HAPLOTYPE NO_PHASE_BLOCK NO_SUBRANGE)
      /\ parse_sense s = SENSE_GENERIC
      /\ parse_sample_name s = NO_SAMPLE_NAME
      /\ parse_locus_name s = s
      /\ parse_haplotype s = Ok NO_HAPLOTYPE
      /\ parse_phase_block s = Ok NO_PHASE_BLOCK
      /\ parse_subrange s = Ok NO_SUBRANGE).
Proof.
  split.
  - intro Hc; destruct (regex_match FORMAT s) as [X|] eqn:Hm; [exfalso | reflexivity].
    pose proof (format_hash_count s X Hm) as Hh.
    destruct (format_open_count s X Hm) as [Ho He].
    destruct Hc as [Hc | [Hc | [Hin Hne]]]; [lia | lia |].
    destruct (He Hin) as [pre Hpre]; exact (Hne pre Hpre).
  - intro Hm.
    unfold parse_path_name, parse_sense, parse_sample_name, parse_locus_name,
      parse_haplotype, parse_phase_block, parse_subrange.
    rewrite Hm; repeat split.
Qed.

Lemma nonmatching_name_is_generic_witness :
  regex_match FORMAT "a#b#c#1#2" = None
  /\ parse_path_name "a["
     = Ok (mk_path_meta SENSE_GENERIC NO_SAMPLE_NAME "a[" NO_HAPLOTYPE NO_PHASE_BLOCK NO_SUBRANGE).
Proof.
  split.
  - apply (proj1 (nonmatching_name_is_generic "a#b#c#1#2")); left; vm_compute; lia.
  - assert (Hm : regex_match FORMAT "a[" = None).
    { apply (proj1 (nonmatching_name_is_generic "a[")); right; right; split.
      - simpl; right; left; reflexivity.
      - intros pre E; destruct pre as [|x [|y [|z pre]]]; simpl in E; try discriminate. }
    exact (proj1 (proj2 (nonmatching_name_is_generic "a[") Hm)).
Defined.

(** C3 (code bug): "1[100]" is not matched, because the end group of the
    range carries no [?]; it parses as a GENERIC name whose locus is the
    whole text and whose subrange is absent.  The builder, for its part,
    writes the open-ended subrange (100, NO_END_POSITION) as "1[100]". *)
Theorem open_range_not_parsed :
  regex_match FORMAT "1[100]" = None
  /\ parse_path_name "1[100]"
     = Ok (mk_path_meta SENSE_GENERIC NO_SAMPLE_NAME "1[100]" NO_HAPLOTYPE NO_PHASE_BLOCK NO_SUBRANGE)
  /\ parse_subrange "1[100]" = Ok NO_SUBRANGE
  /\ create_path_name SENSE_REFERENCE NO_SAMPLE_NAME "1" NO_HAPLOTYPE NO_PHASE_BLOCK
       (100%Z, NO_END_POSITION) = Ok "1[100]"%string.
Proof. repeat split; vm_compute; reflexivity. Qed.

(** C4: on a name the grammar accepts, the sense is HAPLOTYPE exactly when
    capture group 4 (the phase block) matched, and REFERENCE otherwise, both
    for [parse_sense] and for [parse_path_name]; "NA19239#1#chr1#0" is a
    HAPLOTYPE with sample NA19239, haplotype 1, locus chr1 and phase block
    0, and "NA19239#1#chr1" is a REFERENCE. *)
Theorem sense_classification (s : string) (X : caps) :
  regex_match FORMAT s = Some X ->
  (parse_sense s = SENSE_HAPLOTYPE <-> X PHASE_BLOCK_MATCH <> None)
  /\ (parse_sense s = SENSE_REFERENCE <-> X PHASE_BLOCK_MATCH = None)
  /\ (forall r, parse_path_name s = Ok r -> pm_sense r = parse_sense s)
  /\ parse_path_name "NA19239#1#chr1#0"
     = Ok (mk_path_meta SENSE_HAPLOTYPE "NA19239" "chr1" 1 0 NO_SUBRANGE)
  /\ parse_sense "NA19239#1#chr1" = SENSE_REFERENCE.
Proof.
  intro Hm.
  assert (Hs : parse_sense s
               = if matched X PHASE_BLOCK_MATCH then SENSE_HAPLOTYPE else SENSE_REFERENCE)
    by (unfold parse_sense; now rewrite Hm).
  unfold matched in Hs.
  split; [|split; [|split; [|split]]].
  - rewrite Hs; destruct (X PHASE_BLOCK_MATCH); split; congruence.
  - rewrite Hs; destruct (X PHASE_BLOCK_MATCH); split; congruence.
  - intros r Hp; rewrite Hs; unfold parse_path_name in Hp; rewrite Hm in Hp.
    unfold matched in Hp.
    destruct (X PHASE_BLOCK_MATCH), (X LOCUS_MATCH_WITH_HAPLOTYPE),
      (X LOCUS_MATCH_WITHOUT_HAPLOTYPE), (X RANGE_START_MATCH), (X RANGE_END_MATCH);
    repeat match goal with
           | H : bind ?m _ = Ok _ |- _ =>
               let a := fresh "a" in
               apply bind_ok in H; destruct H as [a [_ H]];
               try (lazymatch type of a with
                    | (_ * _ * _)%type => destruct a as [[? ?] ?]
                    end)
           | H : Ok _ = Ok _ |- _ => injection H as <-
           end; reflexivity.
  - vm_compute; reflexivity.
  - vm_compute; reflexivity.
Qed.

Lemma sense_classification_witness :
  exists X, regex_match FORMAT "NA19239#1#chr1#0" = Some X
  /\ (parse_sense "NA19239#1#chr1#0" = SENSE_HAPLOTYPE <-> X PHASE_BLOCK_MATCH <> None).
Proof.
  destruct (regex_match FORMAT "NA19239#1#chr1#0") as [X|] eqn:Hm.
  - exists X; split; [reflexivity|].
    apply (sense_classification "NA19239#1#chr1#0" X Hm).
  - vm_compute in Hm; discriminate.
Defined.

(** C7: [create_path_name] fails, with a runtime error, exactly on the
    contradictory combinations (sample with GENERIC; no locus; haplotype
    with GENERIC; no haplotype with HAPLOTYPE; phase block with GENERIC or
    REFERENCE; no phase block with HAPLOTYPE), and otherwise returns the
    concatenation of sample prefix, locus, haplotype suffix, phase-block
    suffix and range suffix, a subrange being accepted with any sense. *)
Theorem create_path_name_validation (sense : Sense) (sample locus : string)
    (haplotype phase_block : Z) (subrange : Z * Z) :
  match create_path_name sense sample locus haplotype phase_block subrange with
  | Ok name =>
      build_contradictory sense sample locus haplotype phase_block = false
      /\ name = concatenated_name sample locus haplotype phase_block subrange
  | Err e =>
      build_contradictory sense sample locus haplotype phase_block = true
      /\ exists msg, e = RuntimeError msg
  end.
Proof.
  unfold create_path_name, build_contradictory, concatenated_name, sample_prefix,
    number_suffix, range_suffix, NO_SUBRANGE, NO_END_POSITION.
  destruct sense; destruct (String.eqb sample NO_SAMPLE_NAME), (String.eqb locus NO_LOCUS_NAME),
    (Z.eqb haplotype NO_HAPLOTYPE), (Z.eqb phase_block NO_PHASE_BLOCK); simpl;
    try (split; [reflexivity | eexists; reflexivity]);
    (split; [reflexivity |]);
    repeat rewrite string_append_assoc; simpl;
    destruct (Z.eqb (fst subrange) (-1)), (Z.eqb (snd subrange) (-1)); simpl;
    repeat rewrite string_append_empty_r; reflexivity.
Qed.

(** C8: on a name whose all-fields parse raises no error, each single-field
    parser returns the corresponding field of [parse_path_name]. *)
Theorem accessors_agree (s : string) (r : path_meta) :
  parse_path_name s = Ok r ->
  parse_sense s = pm_sense r
  /\ parse_sample_name s = pm_sample r
  /\ parse_locus_name s = pm_locus r
  /\ parse_haplotype s = Ok (pm_haplotype r)
  /\ parse_phase_block s = Ok (pm_phase_block r)
  /\ parse_subrange s = Ok (pm_subrange r).
Proof.
  unfold parse_path_name, parse_sense, parse_sample_name, parse_locus_name,
    parse_haplotype, parse_phase_block, parse_subrange.
  destruct (regex_match FORMAT s) as [X|]; intro Hp.
  - unfold matched in *.
    destruct (X PHASE_BLOCK_MATCH), (X LOCUS_MATCH_WITH_HAPLOTYPE),
      (X LOCUS_MATCH_WITHOUT_HAPLOTYPE), (X RANGE_START_MATCH), (X RANGE_END_MATCH);
    simpl in *;
    destruct (stoll (str X HAPLOTYPE_MATCH)); simpl in *; try discriminate;
    destruct (stoll (str X PHASE_BLOCK_MATCH)); simpl in *; try discriminate;
    destruct (stoll (str X RANGE_START_MATCH)); simpl in *; try discriminate;
    destruct (stoll (str X RANGE_END_MATCH)); simpl in *; try discriminate;
    injection Hp as <-; simpl; repeat split.
  - injection Hp as <-; simpl; repeat split.
Qed.

Lemma accessors_agree_witness :
  parse_path_name "NA19239#1#chr1#0"
    = Ok (mk_path_meta SENSE_HAPLOTYPE "NA19239" "chr1" 1 0 NO_SUBRANGE)
  /\ parse_haplotype "NA19239#1#chr1#0" = Ok 1%Z.
Proof.
  assert (H : parse_path_name "NA19239#1#chr1#0"
              = Ok (mk_path_meta SENSE_HAPLOTYPE "NA19239" "chr1" 1 0 NO_SUBRANGE))
    by (vm_compute; reflexivity).
  split; [exact H|].
  apply (accessors_agree "NA19239#1#chr1#0" _ H).
Defined.

Section PathIterationFacts.

Variable path_handle_t : Type.
Variable get_path_name : path_handle_t -> string.

(** C9: for any handles the enumeration primitive produces and any optional
    sense, sample and locus sets, [for_each_path_matching_impl] behaves as
    the primitive run on the subsequence of selected handles, in the same
    order: the iteratee sees exactly those handles up to and including the
    first one it refuses, and the call returns false when it was stopped
    and true otherwise. *)
Theorem for_each_path_matching_filters {St : Type} (hs : list path_handle_t)
    (senses : option (list Sense)) (samples loci : option (list string))
    (iteratee : St -> path_handle_t -> bool * St) (st : St) :
  for_each_path_matching_impl path_handle_t get_path_name hs senses samples loci iteratee st
  = for_each_path_handle_impl path_handle_t
      (filter (path_selected path_handle_t get_path_name senses samples loci) hs) iteratee st
  /\ (forall f : path_handle_t -> bool,
        for_each_path_matching_impl path_handle_t get_path_name hs senses samples loci
          (fun log h => (f h, log ++ [h])) []
        = (forallb f (filter (path_selected path_handle_t get_path_name senses samples loci) hs),
           take_through path_handle_t f
             (filter (path_selected path_handle_t get_path_name senses samples loci) hs))).
Proof.
  assert (Heq : forall {T : Type} (it : T -> path_handle_t -> bool * T) (t : T),
    for_each_path_matching_impl path_handle_t get_path_name hs senses samples loci it t
    = for_each_path_handle_impl path_handle_t
        (filter (path_selected path_handle_t get_path_name senses samples loci) hs) it t).
  { intros T it; unfold for_each_path_matching_impl.
    induction hs as [|h hs' IH]; intro t; simpl; [reflexivity|].
    unfold path_selected, in_filter, count_sense, count_string.
    destruct senses as [ss|], samples as [sa|], loci as [lo|]; simpl;
      repeat (match goal with |- context [existsb ?f ?l] => destruct (existsb f l) end; simpl);
      try apply IH;
      destruct (it t h) as [[|] t']; simpl; try apply IH; reflexivity. }
  split; [apply Heq|].
  intro f; rewrite Heq, for_each_logging; reflexivity.
Qed.

End PathIterationFacts.

(** C10: a name with no '#' and no '[' (the empty name included) is matched
    by its first component alone and classified REFERENCE, with no sample,
    the whole name as locus, and haplotype, phase block and subrange absent;
    the empty name gives locus "", the NO_LOCUS_NAME placeholder. *)
Theorem plain_name_is_reference (s : string) :
  (forall c, In c (list_ascii_of_string s) -> c <> "#"%char /\ c <> "["%char) ->
  parse_path_name s
    = Ok (mk_path_meta SENSE_REFERENCE NO_SAMPLE_NAME s NO_HAPLOTYPE NO_PHASE_BLOCK NO_SUBRANGE)
  /\ parse_sense s = SENSE_REFERENCE
  /\ parse_sample_name s = NO_SAMPLE_NAME
  /\ parse_locus_name s = s
  /\ parse_haplotype s = Ok NO_HAPLOTYPE
  /\ parse_phase_block s = Ok NO_PHASE_BLOCK
  /\ parse_subrange s = Ok NO_SUBRANGE
  /\ parse_path_name ""
     = Ok (mk_path_meta SENSE_REFERENCE NO_SAMPLE_NAME NO_LOCUS_NAME
             NO_HAPLOTYPE NO_PHASE_BLOCK NO_SUBRANGE).
Proof.
  intro Hs.
  assert (Hl : Forall (fun c => not_sep c = true) (list_ascii_of_string s)).
  { apply Forall_forall; intros c Hc; apply not_sep_spec, Hs, Hc. }
  assert (Hm : regex_match FORMAT s
               = Some (caps_set (caps_set no_caps 1 (list_ascii_of_string s)) 0
                         (list_ascii_of_string s)))
    by (rewrite regex_match_unfold; apply regex_match_plain, Hl).
  unfold parse_path_name, parse_sense, parse_sample_name, parse_locus_name,
    parse_haplotype, parse_phase_block, parse_subrange.
  rewrite Hm; unfold matched, str, caps_set; simpl.
  rewrite string_of_list_ascii_of_string.
  repeat split; vm_compute; reflexivity.
Qed.

Lemma plain_name_is_reference_witness :
  parse_path_name "chr1"
  = Ok (mk_path_meta SENSE_REFERENCE NO_SAMPLE_NAME "chr1" NO_HAPLOTYPE NO_PHASE_BLOCK NO_SUBRANGE).
Proof.
  apply (plain_name_is_reference "chr1").
  simpl; intros c Hc.
  repeat destruct Hc as [<-|Hc]; [split; discriminate ..| contradiction].
Defined.

(** C5 (counterexample): "a#-1#c#0" is classified HAPLOTYPE, yet its
    haplotype, read by [std::stoll] from the text "-1", equals
    NO_HAPLOTYPE. *)
Lemma haplotype_sense_without_haplotype :
  parse_path_name "a#-1#c#0"
  = Ok (mk_path_meta SENSE_HAPLOTYPE "a" "c" NO_HAPLOTYPE 0 NO_SUBRANGE).
Proof. vm_compute; reflexivity. Qed.

(** C5 (amended): for a name that parses without an error, a HAPLOTYPE
    classification implies a present (non-negative) phase block and a
    matched third component, the haplotype being the integer written in the
    second component (so it is NO_HAPLOTYPE exactly when that text reads
    -1); a GENERIC classification implies no sample, no haplotype and no
    phase block. *)
Theorem sense_field_consistency (s : string) (r : path_meta) :
  parse_path_name s = Ok r ->
  (pm_sense r = SENSE_HAPLOTYPE ->
     (0 <= pm_phase_block r)%Z
     /\ exists X, regex_match FORMAT s = Some X
        /\ X LOCUS_MATCH_WITH_HAPLOTYPE <> None
        /\ stoll (str X HAPLOTYPE_MATCH) = Ok (pm_haplotype r))
  /\ (pm_sense r = SENSE_GENERIC ->
        pm_sample r = NO_SAMPLE_NAME /\ pm_haplotype r = NO_HAPLOTYPE
        /\ pm_phase_block r = NO_PHASE_BLOCK).
Proof.
  intro H; pose proof (parse_path_name_sense s r H) as Hsense.
  unfold parse_sense in Hsense; split; intro Hk; rewrite Hk in Hsense.
  - destruct (regex_match FORMAT s) as [X|] eqn:Hm; [|discriminate].
    unfold matched in Hsense.
    destruct (X PHASE_BLOCK_MATCH) as [d4|] eqn:E4; [|discriminate].
    assert (H3 : X LOCUS_MATCH_WITH_HAPLOTYPE <> None).
    { apply (phase_block_needs_third (list_ascii_of_string s));
        [rewrite <- regex_match_unfold; exact Hm | change (X PHASE_BLOCK_MATCH <> None); rewrite E4; discriminate]. }
    assert (Hdig : d4 <> [] /\ Forall (fun c => is_digit c = true) d4).
    { apply (format_numeral_captures s X Hm PHASE_BLOCK_MATCH); [left; reflexivity | exact E4]. }
    destruct Hdig as [Hne Hd].
    destruct (stoll_digits d4 Hne Hd) as [Hv Hst].
    unfold parse_path_name in H; rewrite Hm in H; unfold matched in H.
    rewrite E4 in H.
    destruct (X LOCUS_MATCH_WITH_HAPLOTYPE) as [d3|] eqn:E3; [|contradiction].
    apply bind_ok in H as [slh [Eslh H]].
    apply bind_ok in Eslh as [h [Eh Eslh]]; injection Eslh as <-; simpl in H.
    apply bind_ok in H as [ph [Ep H]].
    apply bind_ok in H as [sr [_ H]].
    injection H as <-; simpl.
    unfold str in Ep; rewrite E4, Hst in Ep.
    split.
    + destruct (digits_value d4 <=? LLONG_MAX)%Z; [injection Ep as <-; exact Hv | discriminate].
    + exists X; repeat split; [rewrite E3; discriminate | exact Eh].
  - destruct (regex_match FORMAT s) as [X|] eqn:Hm.
    + destruct (matched X PHASE_BLOCK_MATCH); discriminate.
    + unfold parse_path_name in H; rewrite Hm in H; injection H as <-; auto.
Qed.

Lemma sense_field_consistency_witness :
  parse_path_name "NA19239#1#chr1#0"
    = Ok (mk_path_meta SENSE_HAPLOTYPE "NA19239" "chr1" 1 0 NO_SUBRANGE)
  /\ (0 <= 0)%Z.
Proof.
  assert (H : parse_path_name "NA19239#1#chr1#0"
              = Ok (mk_path_meta SENSE_HAPLOTYPE "NA19239" "chr1" 1 0 NO_SUBRANGE))
    by (vm_compute; reflexivity).
  split; [exact H|].
  exact (proj1 (proj1 (sense_field_consistency _ _ H) eq_refl)).
Defined.

(** C6 (counterexample): "a#x#chr1" is accepted by the grammar, but its
    haplotype component "x" is not a numeral, so the integer conversion
    throws [std::invalid_argument]; and "s#1#c#99999999999999999999" is
    accepted with a phase block beyond [int64_t], which throws
    [std::out_of_range]. *)
Lemma numeral_error_on_accepted_name :
  (exists X, regex_match FORMAT "a#x#chr1" = Some X)
  /\ parse_haplotype "a#x#chr1" = Err InvalidArgument
  /\ parse_path_name "a#x#chr1" = Err InvalidArgument
  /\ (exists X, regex_match FORMAT "s#1#c#99999999999999999999" = Some X)
  /\ parse_phase_block "s#1#c#99999999999999999999" = Err OutOfRange.
Proof.
  repeat split; try (vm_compute; reflexivity); eexists; vm_compute; reflexivity.
Qed.

(** C6 (amended): on a name the grammar accepts, the phase block and the
    range bounds are non-empty runs of digits, so their conversion yields
    their decimal value and fails only when it exceeds the [int64_t] range;
    the haplotype component is not restricted to digits. *)
Theorem numeral_components_are_digits (s : string) (X : caps) :
  regex_match FORMAT s = Some X ->
  forall n d, numeral_slot n -> X n = Some d ->
  d <> [] /\ Forall (fun c => is_digit c = true) d
  /\ stoll (string_of_list_ascii d)
     = if (digits_value d <=? LLONG_MAX)%Z then Ok (digits_value d) else Err OutOfRange.
Proof.
  intros Hm n d Hn Hd.
  destruct (format_numeral_captures s X Hm n d Hn Hd) as [Hne Hdig].
  repeat split; [exact Hne | exact Hdig | apply (stoll_digits d Hne Hdig)].
Qed.

Lemma numeral_components_are_digits_witness :
  exists X, regex_match FORMAT "CHM13#chr12[300-400]" = Some X
  /\ stoll (string_of_list_ascii ["3"; "0"; "0"]%char) = Ok 300%Z.
Proof.
  destruct (regex_match FORMAT "CHM13#chr12[300-400]") as [X|] eqn:Hm;
    [|vm_compute in Hm; discriminate].
  exists X; split; [reflexivity|].
  assert (H5 : X RANGE_START_MATCH = Some ["3"; "0"; "0"]%char)
    by (vm_compute in Hm; injection Hm as <-; reflexivity).
  destruct (numeral_components_are_digits _ X Hm RANGE_START_MATCH _
              (or_intror (or_introl eq_refl)) H5) as (_ & _ & Hst).
  rewrite Hst; reflexivity.
Defined.

(** C1 (counterexample).  A generic name built from a bare locus parses as a
    reference path, so the tuple does not come back; and a haplotype name is
    written as sample#locus#haplotype#phase while the parser reads
    sample#haplotype#locus#phase, so the locus is handed to [std::stoll]. *)
Lemma round_trip_fails :
  create_path_name SENSE_GENERIC "" "x" NO_HAPLOTYPE NO_PHASE_BLOCK NO_SUBRANGE = Ok "x"%string
  /\ parse_path_name "x"
     = Ok (mk_path_meta SENSE_REFERENCE "" "x" NO_HAPLOTYPE NO_PHASE_BLOCK NO_SUBRANGE)
  /\ create_path_name SENSE_HAPLOTYPE "NA19239" "chr1" 1 0 NO_SUBRANGE
     = Ok "NA19239#chr1#1#0"%string
  /\ parse_path_name "NA19239#chr1#1#0" = Err InvalidArgument.
Proof. repeat split; vm_compute; reflexivity. Qed.

(** C1 (amended).  For a reference path whose sample and locus contain no
    '#' and no '[', with a non-empty locus and either no subrange or a
    subrange of two non-negative [int64_t] bounds, the builder succeeds and
    parsing its output gives back exactly the same six fields. *)
Theorem reference_name_round_trip (sample locus : string) (subrange : Z * Z) :
  Forall (fun c => not_sep c = true) (list_ascii_of_string sample) ->
  Forall (fun c => not_sep c = true) (list_ascii_of_string locus) ->
  locus <> NO_LOCUS_NAME ->
  subrange = NO_SUBRANGE
  \/ (0 <= fst subrange <= LLONG_MAX /\ 0 <= snd subrange <= LLONG_MAX)%Z ->
  exists name,
    create_path_name SENSE_REFERENCE sample locus NO_HAPLOTYPE NO_PHASE_BLOCK subrange = Ok name
    /\ parse_path_name name
       = Ok (mk_path_meta SENSE_REFERENCE sample locus NO_HAPLOTYPE NO_PHASE_BLOCK subrange).
Proof.
  intros Hs Hl Hne Hsr.
  destruct (build_reference_text sample locus subrange Hne) as (name & Hb & Ht).
  exists name; split; [exact Hb|].
  unfold parse_path_name; rewrite regex_match_unfold, Ht.
  set (lc := list_ascii_of_string locus) in *.
  destruct Hsr as [-> | ((Ha0 & Ha1) & (Hb0 & Hb1))].
  - unfold NO_SUBRANGE, NO_END_POSITION; cbn [fst snd]; rewrite Z.eqb_refl; cbn [andb].
    rewrite app_nil_r.
    destruct (String.eqb_spec sample NO_SAMPLE_NAME) as [Es|Es].
    + subst sample.
      set (l := [] ++ lc).
      rewrite (format_head_no_sample l lc [] (caps_set (caps_set no_caps 1 lc) 0 l)
                 ltac:(symmetry; apply app_nil_r) Hl I) by reflexivity.
      cbn -[stoll string_of_list_ascii].
      unfold lc; rewrite string_of_list_ascii_of_string; reflexivity.
    +
      set (sm := list_ascii_of_string sample) in *.
      set (l := (sm ++ ["#"%char]) ++ lc).
      rewrite (format_head_with_sample l sm lc []
                 (caps_set (caps_set (caps_clear (caps_set no_caps 1 sm) [2]) 2 lc) 0 l)
                 ltac:(unfold l; rewrite <- app_assoc, app_nil_r; reflexivity) Hs Hl I)
        by reflexivity.
      cbn -[stoll string_of_list_ascii].
      unfold sm, lc; rewrite !string_of_list_ascii_of_string; reflexivity.
  - destruct subrange as [a b]; cbn [fst snd] in *.
    replace (a =? -1)%Z with false by (symmetry; apply Z.eqb_neq; lia).
    replace (b =? -1)%Z with false by (symmetry; apply Z.eqb_neq; lia).
    cbn [andb].
    rewrite !int64_to_string_nonneg by lia.
    pose proof (stoll_int64_to_string a (conj Ha0 Ha1)) as Sa.
    pose proof (stoll_int64_to_string b (conj Hb0 Hb1)) as Sb.
    destruct (nonneg_digits_spec a Ha0) as (Nea & Da & _).
    destruct (nonneg_digits_spec b Hb0) as (Neb & Db & _).
    destruct (nonneg_digits a) as [|a0 da]; [congruence|].
    destruct (nonneg_digits b) as [|b0 db]; [congruence|].
    destruct (String.eqb_spec sample NO_SAMPLE_NAME) as [Es|Es].
    + subst sample.
      fold (range_text (a0 :: da) (b0 :: db)).
      set (l := [] ++ lc ++ range_text (a0 :: da) (b0 :: db)).
      rewrite (format_head_no_sample l lc (range_text (a0 :: da) (b0 :: db))
                 (caps_set (caps_set (caps_set (caps_clear (caps_set no_caps 1 lc) [5; 6])
                    5 (a0 :: da)) 6 (b0 :: db)) 0 l)
                 eq_refl Hl eq_refl)
        by (apply format_tail_range; [exact Da | exact Db | reflexivity]).
      cbn -[stoll string_of_list_ascii].
      rewrite Sa, Sb; cbn -[string_of_list_ascii].
      unfold lc; rewrite string_of_list_ascii_of_string; reflexivity.
    + fold (range_text (a0 :: da) (b0 :: db)).
      set (sm := list_ascii_of_string sample) in *.
      set (l := (sm ++ ["#"%char]) ++ lc ++ range_text (a0 :: da) (b0 :: db)).
      rewrite (format_head_with_sample l sm lc (range_text (a0 :: da) (b0 :: db))
                 (caps_set (caps_set (caps_set (caps_clear
                    (caps_set (caps_clear (caps_set no_caps 1 sm) [2]) 2 lc) [5; 6])
                    5 (a0 :: da)) 6 (b0 :: db)) 0 l)
                 ltac:(unfold l; rewrite <- app_assoc; reflexivity) Hs Hl eq_refl)
        by (apply format_tail_range; [exact Da | exact Db | reflexivity]).
      cbn -[stoll string_of_list_ascii].
      rewrite Sa, Sb; cbn -[string_of_list_ascii].
      unfold sm, lc; rewrite !string_of_list_ascii_of_string; reflexivity.
Qed.

Lemma reference_name_round_trip_witness :
  exists name,
    create_path_name SENSE_REFERENCE "CHM13" "chr12" NO_HAPLOTYPE NO_PHASE_BLOCK (300%Z, 400%Z)
    = Ok name
    /\ parse_path_name name
       = Ok (mk_path_meta SENSE_REFERENCE "CHM13" "chr12" NO_HAPLOTYPE NO_PHASE_BLOCK
               (300%Z, 400%Z)).
Proof.
  apply reference_name_round_trip;
    [repeat constructor | repeat constructor | discriminate
    | right; unfold LLONG_MAX; cbn [fst snd]; lia].
Defined.

(** ** Further properties of the code *)

(** The decimal text the builder writes for an [int64_t] value holds no
    separator and reads back through [std::stoll] as the same value. *)
Theorem int64_text_round_trip (z : Z) :
  (LLONG_MIN <= z <= LLONG_MAX)%Z ->
  stoll (int64_to_string z) = Ok z
  /\ Forall (fun c => not_sep c = true) (list_ascii_of_string (int64_to_string z)).
Proof.
  intro Hz; split; [apply stoll_int64_round_trip; exact Hz | apply int64_to_string_not_sep].
Qed.

Lemma int64_text_round_trip_witness :
  (LLONG_MIN <= LLONG_MIN <= LLONG_MAX)%Z /\ stoll (int64_to_string LLONG_MIN) = Ok LLONG_MIN.
Proof.
  assert (H : (LLONG_MIN <= LLONG_MIN <= LLONG_MAX)%Z)
    by (unfold LLONG_MIN, LLONG_MAX; lia).
  split; [exact H | apply (proj1 (int64_text_round_trip LLONG_MIN H))].
Defined.

(** A name the grammar accepts captures a range start exactly when it
    captures a range end, and it holds an opening bracket only as the start
    of a final "[start-end]" with two non-empty digit runs. *)
Theorem accepted_name_brackets (s : string) (X : caps) :
  regex_match FORMAT s = Some X ->
  (X RANGE_START_MATCH = None <-> X RANGE_END_MATCH = None)
  /\ forall pre post, list_ascii_of_string s = pre ++ "["%char :: post ->
     exists a b, post = a ++ "-"%char :: b ++ ["]"%char]
       /\ a <> [] /\ b <> []
       /\ Forall (fun c => is_digit c = true) a /\ Forall (fun c => is_digit c = true) b
       /\ X RANGE_START_MATCH = Some a /\ X RANGE_END_MATCH = Some b.
Proof.
  intro Hm.
  destruct (format_bracket s X Hm)
    as [(H5 & H6 & Hno) | (pre0 & a & b & Hs & Hpre & Ha & Hb & Da & Db & H5 & H6)].
  - split; [rewrite H5, H6; tauto|].
    intros pre post Hs; exfalso; rewrite Hs in Hno.
    apply Forall_app in Hno as [_ Hno]; inversion Hno; congruence.
  - split; [rewrite H5, H6; split; discriminate|].
    intros pre post E.
    assert (Hdig : forall d, Forall (fun c => is_digit c = true) d ->
                     Forall (fun c => c <> "["%char) d).
    { intros d Hd; eapply Forall_impl; [|exact Hd]; intros c Hc ->; discriminate. }
    rewrite Hs in E; unfold range_text in E.
    destruct (split_at_unique "["%char pre0 (a ++ ("-"%char :: b) ++ ["]"%char]) pre post Hpre) as [_ Hpost];
      [| exact E |].
    + apply Forall_app; split; [apply Hdig; exact Da|].
      constructor; [discriminate|].
      apply Forall_app; split; [apply Hdig; exact Db | constructor; [discriminate | constructor]].
    + exists a, b; subst post; repeat split; assumption.
Qed.

Lemma accepted_name_brackets_witness :
  exists X, regex_match FORMAT "CHM13#chr12[300-400]" = Some X
  /\ (X RANGE_START_MATCH = None <-> X RANGE_END_MATCH = None).
Proof.
  destruct (regex_match FORMAT "CHM13#chr12[300-400]") as [X|] eqn:Hm;
    [|vm_compute in Hm; discriminate].
  exists X; split; [reflexivity | exact (proj1 (accepted_name_brackets _ X Hm))].
Defined.

(** [parse_subrange] never returns an open-ended range: it gives either
    NO_SUBRANGE or two non-negative bounds, and it fails only with
    [std::out_of_range]. *)
Theorem parse_subrange_bounds (s : string) :
  match parse_subrange s with
  | Ok (a, b) => (a, b) = NO_SUBRANGE \/ (0 <= a /\ 0 <= b)%Z
  | Err e => e = OutOfRange
  end.
Proof.
  unfold parse_subrange; cbv zeta.
  destruct (regex_match FORMAT s) as [X|] eqn:Hm; [|left; reflexivity].
  unfold matched, str.
  destruct (format_bracket s X Hm)
    as [(H5 & H6 & _) | (pre & a & b & _ & _ & Ha & Hb & Da & Db & H5 & H6)].
  - rewrite H5; left; reflexivity.
  - rewrite H5, H6.
    destruct (stoll_digits a Ha Da) as [Hva ->].
    destruct (stoll_digits b Hb Db) as [Hvb ->].
    destruct (digits_value a <=? LLONG_MAX)%Z, (digits_value b <=? LLONG_MAX)%Z; simpl;
      try reflexivity.
    right; lia.
Qed.

(** The text of a built name that carries a subrange. *)
Lemma create_path_name_range_text sense sample locus hap phase start stop name :
  create_path_name sense sample locus hap phase (start, stop) = Ok name ->
  start <> (-1)%Z ->
  exists pre, list_ascii_of_string name =
    pre ++ "["%char :: list_ascii_of_string (int64_to_string start)
        ++ (if (stop =? -1)%Z then []
            else "-"%char :: list_ascii_of_string (int64_to_string stop))
        ++ ["]"%char].
Proof.
  intros Hc Hs; rewrite (create_path_name_text _ _ _ _ _ _ _ Hc); cbn [fst snd].
  replace (start =? -1)%Z with false by (symmetry; apply Z.eqb_neq; exact Hs).
  cbn [andb].
  match goal with
  | |- exists pre, ?p1 ++ ?p2 ++ ?p3 ++ ?p4 ++ _ = _ =>
      exists (p1 ++ p2 ++ p3 ++ p4); rewrite <- !app_assoc; reflexivity
  end.
Qed.

(** Whatever the sense and fields, a name the builder writes for a subrange
    without an end position is parsed back as a GENERIC path whose locus is
    the whole name. *)
Theorem open_subrange_name_is_generic sense sample locus hap phase (start : Z) name :
  start <> (-1)%Z ->
  create_path_name sense sample locus hap phase (start, NO_END_POSITION) = Ok name ->
  parse_path_name name
  = Ok (mk_path_meta SENSE_GENERIC NO_SAMPLE_NAME name NO_HAPLOTYPE NO_PHASE_BLOCK NO_SUBRANGE).
Proof.
  intros Hs Hc.
  destruct (create_path_name_range_text _ _ _ _ _ _ _ _ Hc Hs) as [pre Ht].
  unfold NO_END_POSITION in Ht; cbn [Z.eqb Pos.eqb app] in Ht.
  unfold parse_path_name.
  destruct (regex_match FORMAT name) as [X|] eqn:Hm; [exfalso | reflexivity].
  destruct (format_bracket name X Hm)
    as [(_ & _ & Hno) | (pre0 & a & b & Hs0 & Hpre & Ha & Hb & Da & Db & _ & _)].
  - rewrite Ht in Hno; apply Forall_app in Hno as [_ Hno]; inversion Hno; congruence.
  - assert (Hdig : forall d, Forall (fun c => is_digit c = true) d ->
                     Forall (fun c => c <> "["%char) d).
    { intros d Hd; eapply Forall_impl; [|exact Hd]; intros c Hc' ->; discriminate. }
    rewrite Hs0 in Ht; unfold range_text in Ht.
    destruct (split_at_unique "["%char pre0 (a ++ ("-"%char :: b) ++ ["]"%char]) pre
                (list_ascii_of_string (int64_to_string start) ++ ["]"%char]) Hpre)
      as [_ Hpost]; [| exact Ht |].
    { apply Forall_app; split; [apply Hdig; exact Da|].
      constructor; [discriminate|].
      apply Forall_app; split; [apply Hdig; exact Db | constructor; [discriminate | constructor]]. }
    rewrite app_assoc in Hpost; apply app_inj_tail in Hpost as [Hpost _].
    assert (Hdash : In "-"%char (list_ascii_of_string (int64_to_string start)))
      by (rewrite <- Hpost; apply in_or_app; right; left; reflexivity).
    revert Hpost Hdash; unfold int64_to_string; rewrite list_ascii_of_string_of_list_ascii.
    destruct (start <? 0)%Z eqn:Hneg; intros Hpost Hdash.
    + apply Z.ltb_lt in Hneg.
      destruct a as [|a0 a']; [contradiction|].
      injection Hpost as E0 _; subst a0.
      inversion Da; discriminate.
    + apply Z.ltb_ge in Hneg.
      destruct (nonneg_digits_spec start Hneg) as (_ & Hd & _).
      rewrite Forall_forall in Hd; specialize (Hd _ Hdash); discriminate.
Qed.

Lemma open_subrange_name_is_generic_witness :
  create_path_name SENSE_HAPLOTYPE "NA19239" "chr1" 1 0 (5%Z, NO_END_POSITION)
  = Ok "NA19239#chr1#1#0[5]"%string
  /\ parse_path_name "NA19239#chr1#1#0[5]"
     = Ok (mk_path_meta SENSE_GENERIC NO_SAMPLE_NAME "NA19239#chr1#1#0[5]"
             NO_HAPLOTYPE NO_PHASE_BLOCK NO_SUBRANGE).
Proof.
  assert (Hc : create_path_name SENSE_HAPLOTYPE "NA19239" "chr1" 1 0 (5%Z, NO_END_POSITION)
               = Ok "NA19239#chr1#1#0[5]"%string) by (vm_compute; reflexivity).
  split; [exact Hc|].
  apply (open_subrange_name_is_generic SENSE_HAPLOTYPE "NA19239" "chr1" 1 0 5); [discriminate | exact Hc].
Defined.

(** Helpers for the properties below. *)

Lemma bind_err {A B} (m : result A) (f : A -> result B) (e : error) :
  bind m f = Err e -> m = Err e \/ exists a, m = Ok a /\ f a = Err e.
Proof. destruct m; simpl; [eauto | intro H; left; congruence]. Qed.

Lemma stoll_err s e : stoll s = Err e -> e = InvalidArgument \/ e = OutOfRange.
Proof.
  unfold stoll; cbv zeta; intro H.
  repeat match type of H with
         | context [match ?x with _ => _ end] => destruct x
         end;
    first [discriminate | injection H as <-; auto].
Qed.

Lemma format_numeral_stoll (s : string) (X : caps) n e :
  regex_match FORMAT s = Some X -> numeral_slot n -> matched X n = true ->
  stoll (str X n) = Err e -> e = OutOfRange.
Proof.
  intros Hm Hn; unfold matched, str; destruct (X n) as [d|] eqn:Ed; [|discriminate].
  intros _; destruct (format_numeral_captures s X Hm n d Hn Ed) as [Hne Hd].
  destruct (stoll_digits d Hne Hd) as [_ ->].
  destruct (_ <=? _)%Z; [discriminate | intro H; injection H as <-; reflexivity].
Qed.


Lemma format_text_captures (s : string) (X : caps) :
  regex_match FORMAT s = Some X ->
  forall n d, (n = 1 \/ n = 2 \/ n = 3)%nat -> X n = Some d ->
  Forall (fun c => not_sep c = true) d.
Proof.
  rewrite regex_match_unfold; intros H n d Hn Hd.
  destruct (rmatch_sound _ _ _ _ _ H) as (u & s' & cs' & _ & Hr & Hk).
  destruct (accept_whole_inv _ _ _ _ Hk) as [_ ->].
  set (Q := fun (m : nat) (v : list ascii) =>
              (m = 1 \/ m = 2 \/ m = 3)%nat -> Forall (fun c => not_sep c = true) v).
  assert (HQ : forall m v, cs' m = Some v -> Q m v).
  { apply (mrel_respects Q FORMAT u no_caps cs' Hr).
    - unfold Q; simpl; repeat match goal with |- _ /\ _ => split end;
        first [ exact I
              | intros v cs1 cs2 Hv Hm;
                first [ destruct Hm as [Hm|[Hm|Hm]]; discriminate
                      | inversion Hv; subst; assumption ] ].
    - intros m v Hv; discriminate. }
  unfold caps_set in Hd.
  destruct Hn as [-> | [-> | ->]]; simpl in Hd; apply (HQ _ _ Hd); auto.
Qed.


(** A name built with a sample and a haplotype number is read back with its
    second and third components exchanged: the builder writes
    sample#locus#haplotype but the grammar takes sample#haplotype#locus, so
    the parsed locus is the haplotype's decimal text and the parsed
    haplotype is [std::stoll] of the locus, which throws unless the locus
    starts with a number.  Sense, sample, phase block and subrange survive. *)
Theorem haplotype_name_fields_swapped sense sample locus hap phase sr name :
  create_path_name sense sample locus hap phase sr = Ok name ->
  sample <> NO_SAMPLE_NAME -> hap <> NO_HAPLOTYPE ->
  Forall (fun c => not_sep c = true) (list_ascii_of_string sample) ->
  Forall (fun c => not_sep c = true) (list_ascii_of_string locus) ->
  phase = NO_PHASE_BLOCK \/ (0 <= phase <= LLONG_MAX)%Z ->
  sr = NO_SUBRANGE \/ (0 <= fst sr <= LLONG_MAX /\ 0 <= snd sr <= LLONG_MAX)%Z ->
  parse_path_name name
  = (h <- stoll locus ;; Ok (mk_path_meta sense sample (int64_to_string hap) h phase sr)).
Proof.
  intros Hc Hsm Hh Hs Hl Hph Hsr.
  destruct (create_path_name_valid _ _ _ _ _ _ _ Hc) as (_ & Hhp & _ & Hgen).
  pose proof (create_path_name_text _ _ _ _ _ _ _ Hc) as Ht.
  replace (String.eqb sample NO_SAMPLE_NAME) with false in Ht
    by (symmetry; apply String.eqb_neq; exact Hsm).
  replace (hap =? -1)%Z with false in Ht by (symmetry; apply Z.eqb_neq; exact Hh).
  unfold parse_path_name; rewrite regex_match_unfold, Ht.
  pose proof (int64_to_string_not_sep hap) as Hhs.
  set (sm := list_ascii_of_string sample) in *.
  set (lc := list_ascii_of_string locus) in *.
  set (hp := list_ascii_of_string (int64_to_string hap)) in *.
  destruct Hph as [-> | Hph].
  - assert (Es : sense = SENSE_REFERENCE).
    { destruct sense; [| reflexivity |].
      - exfalso; apply Hh, Hgen; reflexivity.
      - exfalso; apply (proj1 Hhp); reflexivity. }
    subst sense; unfold NO_PHASE_BLOCK; rewrite Z.eqb_refl.
    destruct Hsr as [-> | ((Ha0 & Ha1) & (Hb0 & Hb1))].
    + unfold NO_SUBRANGE, NO_END_POSITION; cbn [fst snd]; rewrite Z.eqb_refl; cbn [andb].
      match goal with |- context [rmatch FORMAT ?l _ _] => set (L := l) end.
      eassert (Hm : rmatch FORMAT L no_caps (accept_whole L) = Some _).
      { eapply (format_head_three L sm lc hp ([] ++ []));
          [unfold L; rewrite <- app_assoc; reflexivity | exact Hs | exact Hl | exact Hhs
          | exact I | reflexivity]. }
      rewrite Hm; cbn -[stoll string_of_list_ascii].
      unfold sm, lc, hp; rewrite !string_of_list_ascii_of_string.
      destruct (stoll locus); reflexivity.
    + destruct sr as [a b]; cbn [fst snd] in *.
      replace (a =? -1)%Z with false by (symmetry; apply Z.eqb_neq; lia).
      replace (b =? -1)%Z with false by (symmetry; apply Z.eqb_neq; lia).
      cbn [andb].
      rewrite !int64_to_string_nonneg by lia.
      pose proof (stoll_int64_to_string a (conj Ha0 Ha1)) as Sa.
      pose proof (stoll_int64_to_string b (conj Hb0 Hb1)) as Sb.
      destruct (nonneg_digits_spec a Ha0) as (Nea & Da & _).
      destruct (nonneg_digits_spec b Hb0) as (Neb & Db & _).
      destruct (nonneg_digits a) as [|a0 da]; [congruence|].
      destruct (nonneg_digits b) as [|b0 db]; [congruence|].
      fold (range_text (a0 :: da) (b0 :: db)).
      match goal with |- context [rmatch FORMAT ?l _ _] => set (L := l) end.
      eassert (Hm : rmatch FORMAT L no_caps (accept_whole L) = Some _).
      { eapply (format_head_three L sm lc hp ([] ++ range_text (a0 :: da) (b0 :: db)));
          [unfold L; rewrite <- app_assoc; reflexivity | exact Hs | exact Hl | exact Hhs
          | reflexivity |].
        rewrite no_phase_then_range by reflexivity.
        apply range_part_take; [exact Da | exact Db | reflexivity]. }
      rewrite Hm; cbn -[stoll string_of_list_ascii].
      rewrite Sa, Sb; cbn -[stoll string_of_list_ascii].
      unfold sm, lc, hp; rewrite !string_of_list_ascii_of_string.
      destruct (stoll locus); reflexivity.
  - assert (Es : sense = SENSE_HAPLOTYPE) by (apply Hhp; unfold NO_PHASE_BLOCK; lia).
    subst sense.
    replace (phase =? -1)%Z with false by (symmetry; apply Z.eqb_neq; lia).
    rewrite (int64_to_string_nonneg phase) by lia.
    pose proof (stoll_int64_to_string phase Hph) as Sp.
    destruct (nonneg_digits_spec phase (proj1 Hph)) as (Nep & Dp & _).
    destruct (nonneg_digits phase) as [|p0 dp]; [congruence|].
    destruct Hsr as [-> | ((Ha0 & Ha1) & (Hb0 & Hb1))].
    + unfold NO_SUBRANGE, NO_END_POSITION; cbn [fst snd]; rewrite Z.eqb_refl; cbn [andb].
      match goal with |- context [rmatch FORMAT ?l _ _] => set (L := l) end.
      eassert (Hm : rmatch FORMAT L no_caps (accept_whole L) = Some _).
      { eapply (format_head_three L sm lc hp (("#"%char :: p0 :: dp) ++ []));
          [unfold L; rewrite <- app_assoc; reflexivity | exact Hs | exact Hl | exact Hhs
          | reflexivity |].
        apply phase_then_range; [exact Dp | exact I | reflexivity]. }
      rewrite Hm; cbn -[stoll string_of_list_ascii].
      rewrite Sp; cbn -[stoll string_of_list_ascii].
      unfold sm, lc, hp; rewrite !string_of_list_ascii_of_string.
      destruct (stoll locus); reflexivity.
    + destruct sr as [a b]; cbn [fst snd] in *.
      replace (a =? -1)%Z with false by (symmetry; apply Z.eqb_neq; lia).
      replace (b =? -1)%Z with false by (symmetry; apply Z.eqb_neq; lia).
      cbn [andb].
      rewrite !int64_to_string_nonneg by lia.
      pose proof (stoll_int64_to_string a (conj Ha0 Ha1)) as Sa.
      pose proof (stoll_int64_to_string b (conj Hb0 Hb1)) as Sb.
      destruct (nonneg_digits_spec a Ha0) as (Nea & Da & _).
      destruct (nonneg_digits_spec b Hb0) as (Neb & Db & _).
      destruct (nonneg_digits a) as [|a0 da]; [congruence|].
      destruct (nonneg_digits b) as [|b0 db]; [congruence|].
      fold (range_text (a0 :: da) (b0 :: db)).
      match goal with |- context [rmatch FORMAT ?l _ _] => set (L := l) end.
      eassert (Hm : rmatch FORMAT L no_caps (accept_whole L) = Some _).
      { eapply (format_head_three L sm lc hp
                  (("#"%char :: p0 :: dp) ++ range_text (a0 :: da) (b0 :: db)));
          [unfold L; rewrite <- app_assoc; reflexivity | exact Hs | exact Hl | exact Hhs
          | reflexivity |].
        apply phase_then_range; [exact Dp | reflexivity |].
        apply range_part_take; [exact Da | exact Db | reflexivity]. }
      rewrite Hm; cbn -[stoll string_of_list_ascii].
      rewrite Sp, Sa, Sb; cbn -[stoll string_of_list_ascii].
      unfold sm, lc, hp; rewrite !string_of_list_ascii_of_string.
      destruct (stoll locus); reflexivity.
Qed.

Lemma haplotype_name_fields_swapped_witness :
  create_path_name SENSE_HAPLOTYPE "HG002"%string "20"%string 2 0 (100%Z, 200%Z)
  = Ok "HG002#20#2#0[100-200]"%string
  /\ parse_path_name "HG002#20#2#0[100-200]"%string
     = Ok (mk_path_meta SENSE_HAPLOTYPE "HG002"%string "2"%string 20 0 (100%Z, 200%Z)).
Proof.
  assert (Hc : create_path_name SENSE_HAPLOTYPE "HG002"%string "20"%string 2 0 (100%Z, 200%Z)
               = Ok "HG002#20#2#0[100-200]"%string) by (vm_compute; reflexivity).
  split; [exact Hc|].
  rewrite (haplotype_name_fields_swapped SENSE_HAPLOTYPE "HG002"%string "20"%string 2 0 (100%Z, 200%Z) _ Hc
             ltac:(discriminate) ltac:(discriminate)
             ltac:(vm_compute; repeat constructor) ltac:(vm_compute; repeat constructor)
             ltac:(right; unfold LLONG_MAX; lia)
             ltac:(right; unfold LLONG_MAX; simpl; lia)).
  vm_compute; reflexivity.
Defined.

(** A name built without a sample but with a haplotype number is read back
    shifted one component to the left: the locus becomes the sample, and
    the sense is always REFERENCE.  Without a phase block the haplotype's
    text becomes the locus and the haplotype is lost; with a phase block
    the phase block's text becomes the locus, the haplotype survives and
    the phase block is lost.  The subrange survives. *)
Theorem sampleless_haplotype_name_shifted sense locus hap phase sr name :
  create_path_name sense NO_SAMPLE_NAME locus hap phase sr = Ok name ->
  hap <> NO_HAPLOTYPE -> (LLONG_MIN <= hap <= LLONG_MAX)%Z ->
  Forall (fun c => not_sep c = true) (list_ascii_of_string locus) ->
  sr = NO_SUBRANGE \/ (0 <= fst sr <= LLONG_MAX /\ 0 <= snd sr <= LLONG_MAX)%Z ->
  parse_path_name name
  = Ok (if (phase =? NO_PHASE_BLOCK)%Z
        then mk_path_meta SENSE_REFERENCE locus (int64_to_string hap)
               NO_HAPLOTYPE NO_PHASE_BLOCK sr
        else mk_path_meta SENSE_REFERENCE locus (int64_to_string phase)
               hap NO_PHASE_BLOCK sr).
Proof.
  intros Hc Hh Hhr Hl Hsr.
  pose proof (create_path_name_text _ _ _ _ _ _ _ Hc) as Ht.
  rewrite String.eqb_refl in Ht.
  replace (hap =? -1)%Z with false in Ht by (symmetry; apply Z.eqb_neq; exact Hh).
  unfold parse_path_name; rewrite regex_match_unfold, Ht.
  pose proof (int64_to_string_not_sep hap) as Hhs.
  pose proof (int64_to_string_not_sep phase) as Hps.
  pose proof (stoll_int64_round_trip hap Hhr) as Sh.
  set (lc := list_ascii_of_string locus) in *.
  set (hp := list_ascii_of_string (int64_to_string hap)) in *.
  set (pp := list_ascii_of_string (int64_to_string phase)) in *.
  unfold NO_PHASE_BLOCK; destruct (phase =? -1)%Z.
  - destruct Hsr as [-> | ((Ha0 & Ha1) & (Hb0 & Hb1))].
    + unfold NO_SUBRANGE, NO_END_POSITION; cbn [fst snd]; rewrite Z.eqb_refl; cbn [andb].
      match goal with |- context [rmatch FORMAT ?l _ _] => set (L := l) end.
      eassert (Hm : rmatch FORMAT L no_caps (accept_whole L) = Some _).
      { eapply (format_head_with_sample L lc hp ([] ++ []));
          [reflexivity | exact Hl | exact Hhs | exact I | reflexivity]. }
      rewrite Hm; cbn -[stoll string_of_list_ascii].
      unfold lc, hp; rewrite !string_of_list_ascii_of_string; reflexivity.
    + destruct sr as [a b]; cbn [fst snd] in *.
      replace (a =? -1)%Z with false by (symmetry; apply Z.eqb_neq; lia).
      replace (b =? -1)%Z with false by (symmetry; apply Z.eqb_neq; lia).
      cbn [andb].
      rewrite !int64_to_string_nonneg by lia.
      pose proof (stoll_int64_to_string a (conj Ha0 Ha1)) as Sa.
      pose proof (stoll_int64_to_string b (conj Hb0 Hb1)) as Sb.
      destruct (nonneg_digits_spec a Ha0) as (Nea & Da & _).
      destruct (nonneg_digits_spec b Hb0) as (Neb & Db & _).
      destruct (nonneg_digits a) as [|a0 da]; [congruence|].
      destruct (nonneg_digits b) as [|b0 db]; [congruence|].
      fold (range_text (a0 :: da) (b0 :: db)).
      match goal with |- context [rmatch FORMAT ?l _ _] => set (L := l) end.
      eassert (Hm : rmatch FORMAT L no_caps (accept_whole L) = Some _).
      { eapply (format_head_with_sample L lc hp ([] ++ range_text (a0 :: da) (b0 :: db)));
          [reflexivity | exact Hl | exact Hhs | reflexivity |].
        apply format_tail_range; [exact Da | exact Db | reflexivity]. }
      rewrite Hm; cbn -[stoll string_of_list_ascii].
      rewrite Sa, Sb; cbn -[stoll string_of_list_ascii].
      unfold lc, hp; rewrite !string_of_list_ascii_of_string; reflexivity.
  - destruct Hsr as [-> | ((Ha0 & Ha1) & (Hb0 & Hb1))].
    + unfold NO_SUBRANGE, NO_END_POSITION; cbn [fst snd]; rewrite Z.eqb_refl; cbn [andb].
      match goal with |- context [rmatch FORMAT ?l _ _] => set (L := l) end.
      eassert (Hm : rmatch FORMAT L no_caps (accept_whole L) = Some _).
      { eapply (format_head_three L lc hp pp []);
          [reflexivity | exact Hl | exact Hhs | exact Hps
          | exact I |].
        rewrite no_phase_then_range by exact I; reflexivity. }
      rewrite Hm; cbn -[stoll string_of_list_ascii].
      unfold lc, hp, pp; rewrite !string_of_list_ascii_of_string, Sh; reflexivity.
    + destruct sr as [a b]; cbn [fst snd] in *.
      replace (a =? -1)%Z with false by (symmetry; apply Z.eqb_neq; lia).
      replace (b =? -1)%Z with false by (symmetry; apply Z.eqb_neq; lia).
      cbn [andb].
      rewrite !(int64_to_string_nonneg a), !(int64_to_string_nonneg b) by lia.
      pose proof (stoll_int64_to_string a (conj Ha0 Ha1)) as Sa.
      pose proof (stoll_int64_to_string b (conj Hb0 Hb1)) as Sb.
      destruct (nonneg_digits_spec a Ha0) as (Nea & Da & _).
      destruct (nonneg_digits_spec b Hb0) as (Neb & Db & _).
      destruct (nonneg_digits a) as [|a0 da]; [congruence|].
      destruct (nonneg_digits b) as [|b0 db]; [congruence|].
      fold (range_text (a0 :: da) (b0 :: db)).
      match goal with |- context [rmatch FORMAT ?l _ _] => set (L := l) end.
      eassert (Hm : rmatch FORMAT L no_caps (accept_whole L) = Some _).
      { eapply (format_head_three L lc hp pp (range_text (a0 :: da) (b0 :: db)));
          [reflexivity | exact Hl | exact Hhs | exact Hps | reflexivity |].
        rewrite no_phase_then_range by reflexivity.
        apply range_part_take; [exact Da | exact Db | reflexivity]. }
      rewrite Hm; cbn -[stoll string_of_list_ascii].
      rewrite Sa, Sb; cbn -[stoll string_of_list_ascii].
      unfold lc, hp, pp; rewrite !string_of_list_ascii_of_string, Sh; reflexivity.
Qed.

Lemma sampleless_haplotype_name_shifted_witness :
  create_path_name SENSE_HAPLOTYPE NO_SAMPLE_NAME "chr1"%string 1 0 NO_SUBRANGE = Ok "chr1#1#0"%string
  /\ parse_path_name "chr1#1#0"%string
     = Ok (mk_path_meta SENSE_REFERENCE "chr1"%string "0"%string 1 NO_PHASE_BLOCK NO_SUBRANGE).
Proof.
  assert (Hc : create_path_name SENSE_HAPLOTYPE NO_SAMPLE_NAME "chr1"%string 1 0 NO_SUBRANGE
               = Ok "chr1#1#0"%string) by (vm_compute; reflexivity).
  split; [exact Hc|].
  rewrite (sampleless_haplotype_name_shifted SENSE_HAPLOTYPE "chr1"%string 1 0 NO_SUBRANGE _ Hc
             ltac:(discriminate) ltac:(unfold LLONG_MIN, LLONG_MAX; lia)
             ltac:(vm_compute; repeat constructor) ltac:(left; reflexivity)).
  reflexivity.
Defined.

(** Whenever [parse_path_name] classifies a name as REFERENCE or HAPLOTYPE,
    the sample and locus it returns contain neither '#' nor '['. *)
Theorem structured_name_fields_separator_free (s : string) (r : path_meta) :
  parse_path_name s = Ok r -> pm_sense r <> SENSE_GENERIC ->
  Forall (fun c => not_sep c = true) (list_ascii_of_string (pm_sample r))
  /\ Forall (fun c => not_sep c = true) (list_ascii_of_string (pm_locus r)).
Proof.
  unfold parse_path_name; destruct (regex_match FORMAT s) as [X|] eqn:Hm;
    [| intros E; injection E as <-; simpl; tauto].
  assert (Hstr : forall n, (n = 1 \/ n = 2 \/ n = 3)%nat ->
                   Forall (fun c => not_sep c = true) (list_ascii_of_string (str X n))).
  { intros n Hn; unfold str; destruct (X n) as [d|] eqn:E; [|constructor].
    rewrite list_ascii_of_string_of_list_ascii; exact (format_text_captures s X Hm n d Hn E). }
  intros E _.
  apply bind_ok in E as [[[sa lo] hh] [Eslh E]]; cbv beta iota in E.
  apply bind_ok in E as [ph [_ E]].
  apply bind_ok in E as [sr [_ E]].
  injection E as <-; simpl.
  destruct (matched X LOCUS_MATCH_WITH_HAPLOTYPE).
  - apply bind_ok in Eslh as [h [_ Eslh]]; injection Eslh as <- <- _.
    split; apply Hstr; auto.
  - destruct (matched X LOCUS_MATCH_WITHOUT_HAPLOTYPE); injection Eslh as <- <- _.
    + split; apply Hstr; auto.
    + split; [constructor | apply Hstr; auto].
Qed.

Lemma structured_name_fields_separator_free_witness :
  parse_path_name "NA19239#1#chr1#0"%string
  = Ok (mk_path_meta SENSE_HAPLOTYPE "NA19239"%string "chr1"%string 1 0 NO_SUBRANGE)
  /\ Forall (fun c => not_sep c = true) (list_ascii_of_string "NA19239"%string)
  /\ Forall (fun c => not_sep c = true) (list_ascii_of_string "chr1"%string).
Proof.
  assert (E : parse_path_name "NA19239#1#chr1#0"%string
              = Ok (mk_path_meta SENSE_HAPLOTYPE "NA19239"%string "chr1"%string 1 0 NO_SUBRANGE))
    by (vm_compute; reflexivity).
  split; [exact E|].
  exact (structured_name_fields_separator_free _ _ E ltac:(discriminate)).
Defined.

(** [parse_path_name] throws only [std::out_of_range] (a numeral beyond the
    [int64_t] range) or [std::invalid_argument], and the latter only when
    the haplotype component it converts is not a number, in which case
    [parse_haplotype] throws it as well. *)
Theorem parse_path_name_errors (s : string) (e : error) :
  parse_path_name s = Err e ->
  e = OutOfRange \/ (e = InvalidArgument /\ parse_haplotype s = Err InvalidArgument).
Proof.
  unfold parse_path_name; destruct (regex_match FORMAT s) as [X|] eqn:Hm; [|discriminate].
  intro E.
  apply bind_err in E as [E | ([[sa lo] h] & _ & E)].
  - destruct (matched X LOCUS_MATCH_WITH_HAPLOTYPE) eqn:M3;
      [| destruct (matched X LOCUS_MATCH_WITHOUT_HAPLOTYPE); discriminate].
    apply bind_err in E as [E | (h & _ & E)]; [|discriminate].
    destruct (stoll_err _ _ E) as [-> | ->]; [right | left; reflexivity].
    split; [reflexivity|].
    unfold parse_haplotype; rewrite Hm, M3; exact E.
  - left; cbv beta iota in E.
    apply bind_err in E as [E | (ph & _ & E)].
    + destruct (matched X PHASE_BLOCK_MATCH) eqn:M4; [|discriminate].
      apply (format_numeral_stoll s X PHASE_BLOCK_MATCH e Hm); [left; reflexivity | exact M4 | exact E].
    + apply bind_err in E as [E | (sr & _ & E)]; [|discriminate].
      destruct (matched X RANGE_START_MATCH) eqn:M5; [|discriminate].
      apply bind_err in E as [E | (a & _ & E)].
      * apply (format_numeral_stoll s X RANGE_START_MATCH e Hm);
          [right; left; reflexivity | exact M5 | exact E].
      * destruct (matched X RANGE_END_MATCH) eqn:M6; [|discriminate].
        apply bind_err in E as [E | (b & _ & E)]; [|discriminate].
        apply (format_numeral_stoll s X RANGE_END_MATCH e Hm);
          [right; right; reflexivity | exact M6 | exact E].
Qed.

Lemma parse_path_name_errors_witness :
  parse_path_name "NA19239#chr1#1"%string = Err InvalidArgument
  /\ parse_haplotype "NA19239#chr1#1"%string = Err InvalidArgument.
Proof.
  assert (E : parse_path_name "NA19239#chr1#1"%string = Err InvalidArgument) by (vm_compute; reflexivity).
  split; [exact E|].
  destruct (parse_path_name_errors _ _ E) as [H | [_ H]]; [discriminate | exact H].
Defined.

Section StepIterationFacts.

Variables handle_t step_handle_t path_handle_t : Type.
Variable get_path_name : path_handle_t -> string.
Variable get_path_handle_of_step : step_handle_t -> path_handle_t.
Variable steps_on : handle_t -> list step_handle_t.

Lemma visit_steps_logging (f : step_handle_t -> bool) (l log : list step_handle_t) :
  visit_steps step_handle_t l (fun log x => (f x, log ++ [x])) log
  = (forallb f l, log ++ steps_through step_handle_t f l).
Proof.
  revert log; induction l as [|x t IH]; intro log; simpl.
  - now rewrite app_nil_r.
  - destruct (f x); simpl.
    + rewrite IH, <- app_assoc; reflexivity.
    + reflexivity.
Qed.

(** [for_each_step_of_sense_impl] behaves as the step enumeration primitive
    run on the steps of the visited handle whose path has the given sense,
    in the same order: the iteratee sees exactly those steps up to and
    including the first one it refuses, and the call returns false when it
    was stopped and true otherwise. *)
Theorem for_each_step_of_sense_filters {St : Type} (visited : handle_t) (sense : Sense)
    (iteratee : St -> step_handle_t -> bool * St) (st : St) :
  let on_sense := filter (fun x => Sense_eqb (get_sense path_handle_t get_path_name
                                                 (get_path_handle_of_step x)) sense)
                    (steps_on visited) in
  for_each_step_of_sense_impl handle_t step_handle_t path_handle_t get_path_name
    get_path_handle_of_step steps_on visited sense iteratee st
  = visit_steps step_handle_t on_sense iteratee st
  /\ (forall f : step_handle_t -> bool,
        for_each_step_of_sense_impl handle_t step_handle_t path_handle_t get_path_name
          get_path_handle_of_step steps_on visited sense (fun log x => (f x, log ++ [x])) []
        = (forallb f on_sense, steps_through step_handle_t f on_sense)).
Proof.
  intro on_sense.
  assert (Heq : forall {T : Type} (it : T -> step_handle_t -> bool * T) (t : T),
    for_each_step_of_sense_impl handle_t step_handle_t path_handle_t get_path_name
      get_path_handle_of_step steps_on visited sense it t
    = visit_steps step_handle_t on_sense it t).
  { intros T it; unfold for_each_step_of_sense_impl, for_each_step_on_handle_impl, on_sense.
    induction (steps_on visited) as [|x xs IH]; intro t; simpl; [reflexivity|].
    destruct (Sense_eqb _ sense); simpl; [|apply IH].
    destruct (it t x) as [[|] t']; [apply IH | reflexivity]. }
  split; [apply Heq|].
  intro f; rewrite Heq, visit_steps_logging; reflexivity.
Qed.

End StepIterationFacts.

End PathMetadata.
